(** * Interaural-time-difference stimuli and the adaptive JND staircase

    A shallow embedding of [src/jnd_exps.py] (class [jnd_experiment]) and
    [src/src/itd_generate.py] (class [generate_ITD]).

    Number models.
    - The staircase controller only multiplies, compares and stores Python
      floats; it is embedded over Rocq's primitive binary64 floats, so the
      arithmetic is bit-for-bit the interpreter's and every definition runs.
    - The signal code (delay model, interpolation, gains, normalisation) is
      embedded over the real numbers [R]: NumPy's float64 arrays are
      idealised as lists of reals, [np.sin], [np.pi] and [**] as [sin], [PI]
      and [Rpower].  Rounding is therefore outside the model.
    - Python integers are [Z]; strings are [string] (code points below 256). *)

From Stdlib Require Import ZArith List Bool String Ascii Lia PrimFloat.
From Stdlib Require Import Reals Lra.
Import ListNotations.

(** ** Outcomes of Python calls *)

(** A call either returns a value, returns [None] by falling off the end of
    the function body, or raises.  [ValueError] is the only exception the
    embedded code can raise. *)
Inductive outcome (A : Type) : Type :=
| Returned (a : A)
| ReturnedNone
| Raised_ValueError.
Arguments Returned {A} a.
Arguments ReturnedNone {A}.
Arguments Raised_ValueError {A}.

(** ** [itd_generate.py]: the binaural model and the signal shifter *)

Module generate_ITD.

Local Open Scope R_scope.

(** The attributes set by [generate_ITD.__init__]. *)
Record t : Type := mk {
  sample_rate : R;
  avg_head_r : R;
  speed_of_sound : R
}.

(** [generate_ITD.__init__]: three assignments, no check on any argument. *)
Definition init (sample_rate avg_head_r speed_of_sound : R) : outcome t :=
  Returned
    {| sample_rate := sample_rate;
       avg_head_r := avg_head_r;
       speed_of_sound := speed_of_sound |}.

(** [generate_ITD()] with the defaults of the signature. *)
Definition default : t :=
  {| sample_rate := 44100; avg_head_r := 0.0875; speed_of_sound := 343 |}.

(** [np.clip(x, lo, hi)], which is [minimum(maximum(x, lo), hi)]. *)
Definition np_clip (x lo hi : R) : R := Rmin (Rmax x lo) hi.

(** [np.radians]. *)
Definition np_radians (deg : R) : R := deg * (PI / 180).

(** [generate_ITD.woodworth_model]. *)
Definition woodworth_model (self : t) (angle_deg : R) : R :=
  let theta := np_radians angle_deg in
  let theta_c := np_clip theta (- PI / 2) (PI / 2) in
  (avg_head_r self / speed_of_sound self) * (theta_c + sin theta_c).

(** [generate_ITD.simple_ild]; [6.0] is the default of [max_ild]. *)
Definition simple_ild (angle_deg max_ild : R) : R :=
  np_clip ((angle_deg / 90) * max_ild) (- max_ild) max_ild.

Definition default_max_ild : R := 6.

(** [np.arange(n)] as floats: [0, 1, ..., n-1]. *)
Definition np_arange (n : nat) : list R := map INR (seq 0 n).

(** One query of [np.interp] that lies inside [[xp[0], xp[-1]]]: find the
    interval [xp[j] <= q < xp[j+1]] and interpolate on it; on the last sample
    point, or exactly on a sample point, the stored value is returned. *)
Fixpoint interp_search (q : R) (xp fp : list R) : R :=
  match xp, fp with
  | x0 :: xs, f0 :: fs =>
      match xs, fs with
      | x1 :: _, f1 :: _ =>
          if Rlt_dec q x1
          then if Req_dec_T x0 q then f0
               else (f1 - f0) / (x1 - x0) * (q - x0) + f0
          else interp_search q xs fs
      | _, _ => f0
      end
  | _, _ => 0
  end.

Definition interp_one (q : R) (xp fp : list R) (left right : R) : R :=
  if Rlt_dec (last xp 0) q then right
  else if Rlt_dec q (hd 0 xp) then left
  else interp_search q xp fp.

(** [np.interp(x, xp, fp, left, right)]: an empty [xp], or [fp] of another
    length, raises [ValueError], whatever [x] holds. *)
Definition np_interp (x xp fp : list R) (left right : R) : outcome (list R) :=
  match xp with
  | [] => Raised_ValueError
  | _ :: _ =>
      if Nat.eqb (List.length fp) (List.length xp)
      then Returned (map (fun q => interp_one q xp fp left right) x)
      else Raised_ValueError
  end.

(** [generate_ITD.fractional_shift]. *)
Definition fractional_shift (x : list R) (sample_shift : R) : outcome (list R) :=
  let n := List.length x in
  let t := np_arange n in
  let t_src := map (fun ti => ti - sample_shift) t in
  np_interp t_src t x 0 0.

(** The samples [fractional_shift] computes for a non-empty input. *)
Definition shifted (x : list R) (sample_shift : R) : list R :=
  map (fun q => interp_one q (np_arange (List.length x)) x 0 0)
      (map (fun ti => ti - sample_shift) (np_arange (List.length x))).

(** Sample [m] of [x] on the integer grid, zero outside [0 .. len(x)-1]. *)
Definition sample (x : list R) (m : Z) : R :=
  if ((0 <=? m)%Z && (m <? Z.of_nat (List.length x))%Z)%bool
  then nth (Z.to_nat m) x 0 else 0.

(** Every entry of an [N x 2] array is at most [b] in absolute value. *)
Definition bounded_by (b : R) (stereo_signal : list (R * R)) : Prop :=
  Forall (fun p => Rabs (fst p) <= b /\ Rabs (snd p) <= b) stereo_signal.

(** Entry by entry, [quiet] is no louder than [loud]. *)
Definition no_louder (quiet loud : list (R * R)) : Prop :=
  Forall2 (fun p q => Rabs (fst p) <= Rabs (fst q)
                      /\ Rabs (snd p) <= Rabs (snd q)) quiet loud.

(** Lines 85-102 of [apply_itd]: the two shifted channels, [(left, right)]. *)
Definition itd_channels (self : t) (mono_sound : list R) (angle_deg : R)
  : outcome (list R * list R) :=
  let itd_sec := woodworth_model self angle_deg in
  let d_samples := itd_sec * sample_rate self in
  let shift_left := 0.5 * Rabs d_samples in
  let shift_right := - 0.5 * Rabs d_samples in
  let '(sl, sr) :=
    if Rle_dec 0 angle_deg then (shift_left, shift_right)
    else (shift_right, shift_left) in
  match fractional_shift mono_sound sl with
  | Returned left_ =>
      match fractional_shift mono_sound sr with
      | Returned right_ => Returned (left_, right_)
      | _ => Raised_ValueError
      end
  | _ => Raised_ValueError
  end.

(** Lines 107-115: the level cue and [np.column_stack([left, right])]. *)
Definition ild_stereo (angle_deg : R) (left right : list R) : list (R * R) :=
  let ild := simple_ild angle_deg default_max_ild in
  let increase_R := Rpower 10 ((ild / 20) / 2) in
  let increase_L := Rpower 10 ((- ild / 20) / 2) in
  combine (map (fun v => v * increase_L) left)
          (map (fun v => v * increase_R) right).

(** [np.max(np.abs(a))] over all entries of an [N x 2] array; the reduction
    of an empty array raises [ValueError]. *)
Definition np_max_abs (stereo_signal : list (R * R)) : outcome R :=
  match flat_map (fun p => [Rabs (fst p); Rabs (snd p)]) stereo_signal with
  | [] => Raised_ValueError
  | v :: vs => Returned (fold_left Rmax vs v)
  end.

Definition scale_stereo (k : R) (stereo_signal : list (R * R)) : list (R * R) :=
  map (fun p => (fst p / k, snd p / k)) stereo_signal.

(** Lines 118-121: the signal is divided by its peak only if the peak is
    above [1.0]. *)
Definition peak_normalise (stereo_signal : list (R * R))
  : outcome (list (R * R)) :=
  match np_max_abs stereo_signal with
  | Returned peak_norm =>
      if Rlt_dec 1 peak_norm
      then Returned (scale_stereo peak_norm stereo_signal)
      else Returned stereo_signal
  | _ => Raised_ValueError
  end.

(** [generate_ITD.apply_itd].  The only [return] statement sits inside the
    [if use_ild:] block; with [use_ild = False] control reaches the end of
    the body. *)
Definition apply_itd (self : t) (mono_signal : list R) (angle_deg : R)
    (use_ild : bool) : outcome (list (R * R)) :=
  match itd_channels self mono_signal angle_deg with
  | Returned (left_, right_) =>
      if use_ild
      then peak_normalise (ild_stereo angle_deg left_ right_)
      else ReturnedNone
  | _ => Raised_ValueError
  end.

(** The stereo signal with its two columns exchanged. *)
Definition swap_channels (stereo_signal : list (R * R)) : list (R * R) :=
  map (fun p => (snd p, fst p)) stereo_signal.

(** The sample-wise combination [k * x + k' * x'] of two signals. *)
Definition lincomb (k : R) (x : list R) (k' : R) (x' : list R) : list R :=
  map (fun p => k * fst p + k' * snd p) (combine x x').

(** A value of the fade window: between 0 and 1. *)
Definition unit_interval (v : R) : Prop := 0 <= v <= 1.

(** [int(x)] of a float: truncation toward zero. *)
Definition py_int (x : R) : Z :=
  if Rle_dec 0 x then Int_part x else (- Int_part (- x))%Z.

(** [np.linspace(start, stop, num)]; a single point is [start]. *)
Definition np_linspace (start stop : R) (num : nat) : list R :=
  match num with
  | 1%nat => [start]
  | _ =>
      map (fun i => start + INR i * ((stop - start) / INR (num - 1)))
          (seq 0 num)
  end.

(** The in-place product [target *= values] on a one-dimensional slice:
    the lengths must agree, or [values] must hold a single element, which
    then multiplies every entry; any other pair of shapes raises
    [ValueError]. *)
Definition imul (target values : list R) : outcome (list R) :=
  if Nat.eqb (List.length values) (List.length target)
  then Returned (map (fun p => fst p * snd p) (combine target values))
  else match values with
       | [v] => Returned (map (fun u => u * v) target)
       | _ => Raised_ValueError
       end.

(** Line 133: the number [n] of samples of the tone. *)
Definition tone_samples (self : t) (duration : R) : Z :=
  py_int (sample_rate self * duration).

(** Lines 138-139: the number [ramp_y] of samples of each ramp. *)
Definition ramp_samples (self : t) : Z :=
  Z.max 1 (py_int (sample_rate self * 0.01)).

(** Line 141: the raised-cosine ramp. *)
Definition ramp_values (ramp_y : nat) : list R :=
  map (fun v => 0.5 * (1 - cos v)) (np_linspace 0 PI ramp_y).

(** [generate_ITD.play_test_tone].  [np.ones(n)] raises [ValueError] for a
    negative [n]; the two slice products are [window[:ramp_y] *= ramp_val]
    and [window[-ramp_y:] *= ramp_val[::-1]]. *)
Definition play_test_tone (self : t) (freq duration : R) : outcome (list R) :=
  let n := tone_samples self duration in
  let t := map (fun k => k / sample_rate self) (np_arange (Z.to_nat n)) in
  let t_tone := map (fun ti => sin (2 * PI * freq * ti)) t in
  let ramp_y := Z.to_nat (ramp_samples self) in
  if (n <? 0)%Z then Raised_ValueError
  else
    let window := repeat 1 (Z.to_nat n) in
    let ramp_val := ramp_values ramp_y in
    match imul (firstn ramp_y window) ramp_val with
    | Returned head =>
        let window := head ++ skipn ramp_y window in
        let cut := (List.length window - ramp_y)%nat in
        match imul (skipn cut window) (rev ramp_val) with
        | Returned tail =>
            let window := firstn cut window ++ tail in
            Returned (map (fun p => fst p * snd p) (combine t_tone window))
        | _ => Raised_ValueError
        end
    | _ => Raised_ValueError
    end.

(** The samples [save_soundfile] hands to [wavfile.write] (lines 160-164):
    the signal scaled to a peak of [0.95] unless it is silent, times
    [32767], truncated to integers by [astype(np.int16)].  The directory
    creation and the file write are not modelled. *)
Definition save_soundfile_samples (stereo_signal : list (R * R))
  : outcome (list (Z * Z)) :=
  match np_max_abs stereo_signal with
  | Returned peak_norm =>
      let x :=
        if Rlt_dec 0 peak_norm
        then map (fun p => (fst p / peak_norm * 0.95, snd p / peak_norm * 0.95))
                 stereo_signal
        else stereo_signal in
      Returned (map (fun p => (py_int (fst p * 32767), py_int (snd p * 32767))) x)
  | _ => Raised_ValueError
  end.

End generate_ITD.

(** ** [jnd_exps.py]: the adaptive staircase controller *)

Module jnd_experiment.

Local Open Scope Z_scope.

(** The two strings [adjust_angle] stores in [self.last_direction]. *)
Inductive direction : Type := up | down.

Definition direction_eqb (a b : direction) : bool :=
  match a, b with
  | up, up | down, down => true
  | _, _ => false
  end.

(** The attributes of a [jnd_experiment] object that the controller reads or
    writes.  [generator], [tone] and the matplotlib handles ([fig], [ax],
    [line], [scatter]) never flow back into these attributes and are left
    out. *)
Record t : Type := mk {
  angle : float;
  min_angle : float;
  max_angle : float;
  max_trials : Z;
  correct_streak : Z;
  reversals : Z;
  last_direction : option direction;
  history_angle : list float;
  history_correct : list bool
}.

(** Lines 25-36 of [jnd_experiment.__init__]: the attribute assignments.
    The arguments are stored as given; nothing is compared or checked.  The
    whole constructor, with the generator, the tone and the plot set-up
    around these assignments, is [construct] below. *)
Definition init (max_trials : Z) (start_angle min_angle max_angle : float)
  : outcome t :=
  Returned
    {| angle := start_angle;
       min_angle := min_angle;
       max_angle := max_angle;
       max_trials := max_trials;
       correct_streak := 0;
       reversals := 0;
       last_direction := None;
       history_angle := [];
       history_correct := [] |}.

(** The defaults of the signature: [max_trials = 10], [start_angle = 10.0],
    [min_angle = 0.0], [max_angle = 90.0]. *)
Definition default_max_trials : Z := 10.
Definition default_start_angle : float := 10%float.
Definition default_min_angle : float := 0%float.
Definition default_max_angle : float := 90%float.

#[local] Set Warnings "-inexact-float".

(** Python's two-argument [max(a, b)] and [min(a, b)]: the first argument is
    kept unless the second compares strictly beyond it. *)
Definition py_max (a b : float) : float := if PrimFloat.ltb a b then b else a.
Definition py_min (a b : float) : float := if PrimFloat.ltb b a then b else a.

(** [jnd_experiment.adjust_angle(difficulty)]. *)
Definition adjust_angle (self : t) (difficulty : bool) : t :=
  let new_angle :=
    if difficulty
    then py_max (min_angle self) (PrimFloat.mul (angle self) 0.8%float)
    else py_min (max_angle self) (PrimFloat.mul (angle self) 1.25%float) in
  let new_direction := if difficulty then down else up in
  let counted :=
    match last_direction self with
    | Some d => negb (direction_eqb new_direction d)
    | None => false
    end in
  {| angle := new_angle;
     min_angle := min_angle self;
     max_angle := max_angle self;
     max_trials := max_trials self;
     correct_streak := correct_streak self;
     reversals := if counted then reversals self + 1 else reversals self;
     last_direction := Some new_direction;
     history_angle := history_angle self;
     history_correct := history_correct self |}.

(** *** The collaborators of a trial *)

(** What a session consumes and emits: the stream of [random.choice] draws
    (a draw is the index picked in a two-element list), the stream of lines
    typed at the [input] prompt, and the azimuths of the stimuli handed to
    [tt_playback], most recent first.  [drawn] and [prompted] count the draws
    and the prompts made so far. *)
Record world : Type := mk_world {
  draws : nat -> bool;
  drawn : nat;
  replies : nat -> string;
  prompted : nat;
  played : list float
}.

Definition random_choice {A : Type} (first second : A) (w : world) : A * world :=
  (if draws w (drawn w) then second else first,
   {| draws := draws w; drawn := S (drawn w);
      replies := replies w; prompted := prompted w; played := played w |}).

Definition input (w : world) : string * world :=
  (replies w (prompted w),
   {| draws := draws w; drawn := drawn w;
      replies := replies w; prompted := S (prompted w); played := played w |}).

Definition tt_playback (azimuth : float) (w : world) : world :=
  {| draws := draws w; drawn := drawn w;
     replies := replies w; prompted := prompted w;
     played := azimuth :: played w |}.

(** [str.isspace] on the code points below 256: TAB..CR, FS..US, SPACE,
    NEL (0x85) and NBSP (0xA0). *)
Definition isspace (c : ascii) : bool :=
  let n := nat_of_ascii c in
  ((9 <=? n) && (n <=? 13) || (28 <=? n) && (n <=? 32)
   || (n =? 133) || (n =? 160))%nat.

Fixpoint lstrip (s : string) : string :=
  match s with
  | EmptyString => EmptyString
  | String c s' => if isspace c then lstrip s' else s
  end.

Fixpoint rstrip (s : string) : string :=
  match s with
  | EmptyString => EmptyString
  | String c s' =>
      match rstrip s' with
      | EmptyString => if isspace c then EmptyString else String c EmptyString
      | r => String c r
      end
  end.

(** [str.strip()] with no argument. *)
Definition strip (s : string) : string := rstrip (lstrip s).

(** Lines 57-64: the label of the interval that is further left, from the
    drawn [order] and the sign of the target. *)
Definition correct_label (order : Z) (target_angle : float) : string :=
  if order =? 0
  then (if PrimFloat.ltb target_angle 0%float then "2" else "1")%string
  else (if PrimFloat.ltb target_angle 0%float then "1" else "2")%string.

(** Lines 76-81: the stripped reply is scored; anything other than the two
    labels is scored [False]. *)
Definition score (pp_response correct_response : string) : bool :=
  if (String.eqb pp_response "1" || String.eqb pp_response "2")%bool
  then String.eqb pp_response correct_response
  else false.

(** [self.correct_streak += 1]. *)
Definition bump_streak (self : t) : t :=
  {| angle := angle self;
     min_angle := min_angle self;
     max_angle := max_angle self;
     max_trials := max_trials self;
     correct_streak := correct_streak self + 1;
     reversals := reversals self;
     last_direction := last_direction self;
     history_angle := history_angle self;
     history_correct := history_correct self |}.

(** Lines 91-92: the two [append] calls. *)
Definition log_trial (self : t) (target_angle : float) (is_correct : bool) : t :=
  {| angle := angle self;
     min_angle := min_angle self;
     max_angle := max_angle self;
     max_trials := max_trials self;
     correct_streak := correct_streak self;
     reversals := reversals self;
     last_direction := last_direction self;
     history_angle := history_angle self ++ [target_angle];
     history_correct := history_correct self ++ [is_correct] |}.

(** Lines 84-92: the staircase update, then the log.  There is no [else]
    branch and no assignment that lowers [correct_streak]. *)
Definition update_staircase (self : t) (is_correct : bool)
    (target_angle : float) : t :=
  let self :=
    if is_correct then
      let self := bump_streak self in
      if 2 <=? correct_streak self then adjust_angle self false else self
    else self in
  log_trial self target_angle is_correct.

(** [jnd_experiment.trial_run].  (The docstring on line 51 is indented one
    level short of the body; the method is read with the docstring as the
    first statement of its body.)  The two stimuli are
    [apply_itd(self.tone, 0)] and [apply_itd(self.tone, target_angle)]; the
    world records their azimuths in playing order. *)
Definition trial_run (self : t) (w : world) : (bool * float) * t * world :=
  let '(sign, w) := random_choice (-1)%float 1%float w in
  let target_angle := PrimFloat.mul sign (angle self) in
  let '(order, w) := random_choice 0 1 w in
  let sound_a := if order =? 0 then 0%float else target_angle in
  let sound_b := if order =? 0 then target_angle else 0%float in
  let correct_response := correct_label order target_angle in
  let w := tt_playback sound_a w in
  let w := tt_playback sound_b w in
  let '(line, w) := input w in
  let pp_response := strip line in
  let is_correct := score pp_response correct_response in
  ((is_correct, target_angle), update_staircase self is_correct target_angle, w).

(** The [while] loop of [jnd_experiment.run], with a bound on the number of
    iterations: [None] means the bound was hit with the loop condition still
    true.  The result carries the final value of the local [trial]. *)
Fixpoint run_loop (fuel : nat) (trial : Z) (self : t) (w : world)
  : option (t * world * Z) :=
  if ((trial <? max_trials self) && (reversals self <? 10))%bool then
    match fuel with
    | O => None
    | S fuel' =>
        let '(_, self', w') := trial_run self w in
        run_loop fuel' (trial + 1) self' w'
    end
  else Some (self, w, trial).

(** [jnd_experiment.run]: at most [max_trials] iterations can happen, which
    is the bound handed to the loop. *)
Definition run (self : t) (w : world) : option (t * world * Z) :=
  run_loop (Z.to_nat (max_trials self)) 0 self w.

(** What [run] returns to its caller. *)
Definition histories (self : t) : list float * list bool :=
  (history_angle self, history_correct self).

(** One trial as a transition on (object, world). *)
Definition step (self : t) (w : world) : t * world :=
  let '(_, self', w') := trial_run self w in (self', w').

(** The object and world after [k] consecutive calls of [trial_run], with no
    loop condition in between. *)
Fixpoint after_trials (k : nat) (self : t) (w : world) : t * world :=
  match k with
  | O => (self, w)
  | S k' => let '(self', w') := step self w in after_trials k' self' w'
  end.

(** [self.angle] before the first trial and after each of the first [k]
    trials. *)
Definition angle_trace (k : nat) (self : t) (w : world) : list float :=
  map (fun i => angle (fst (after_trials i self w))) (seq 0 (S k)).

(** The signed target of the trial that starts in [(self, w)]. *)
Definition target_of (self : t) (w : world) : float :=
  PrimFloat.mul (if draws w (drawn w) then 1%float else (-1)%float) (angle self).

(** The presentation order drawn in the trial that starts in [w]. *)
Definition order_of (w : world) : Z := if draws w (S (drawn w)) then 1 else 0.

(** The score of the trial that starts in [(self, w)]. *)
Definition score_of (self : t) (w : world) : bool :=
  score (strip (replies w (prompted w)))
        (correct_label (order_of w) (target_of self w)).

(** The scored trials [(is_correct, target_angle)] of the first [k] trials
    from [(self, w)]. *)
Fixpoint outcomes (k : nat) (self : t) (w : world) : list (bool * float) :=
  match k with
  | O => []
  | S k' =>
      (score_of self w, target_of self w)
      :: outcomes k' (fst (step self w)) (snd (step self w))
  end.

(** The staircase updates of a list of scored trials, in order. *)
Definition replay (self : t) (trials : list (bool * float)) : t :=
  fold_left (fun s ct => update_staircase s (fst ct) (snd ct)) trials self.

(** What holds of every object reachable from [__init__]. *)
Definition only_up (self : t) : Prop :=
  last_direction self <> Some down /\ reversals self = 0.

(** [adjust_angle] called once per entry of [difficulties], in order. *)
Definition adjust_each (self : t) (difficulties : list bool) : t :=
  fold_left adjust_angle difficulties self.

(** A world that replays the given draws and typed lines; past their end
    every draw is index 0 and every line is empty. *)
Definition scripted (bits : list bool) (lines : list string) : world :=
  {| draws := fun i => nth i bits false; drawn := 0;
     replies := fun i => nth i lines EmptyString; prompted := 0;
     played := [] |}.

(** The object built by [jnd_experiment(max_trials = n)], all other
    arguments at their defaults. *)
Definition session (n : Z) : t :=
  {| angle := default_start_angle;
     min_angle := default_min_angle;
     max_angle := default_max_angle;
     max_trials := n;
     correct_streak := 0;
     reversals := 0;
     last_direction := None;
     history_angle := [];
     history_correct := [] |}.

(** The direction [adjust_angle(difficulty)] stores. *)
Definition direction_of (difficulty : bool) : direction :=
  if difficulty then down else up.

(** The number of places in a sequence of [adjust_angle] calls where the
    direction differs from the one before it, [last] being the direction
    stored before the first call. *)
Fixpoint direction_changes (last : option direction) (difficulties : list bool)
  : Z :=
  match difficulties with
  | [] => 0
  | d :: rest =>
      (match last with
       | Some old => if direction_eqb (direction_of d) old then 0 else 1
       | None => 0
       end)
      + direction_changes (Some (direction_of d)) rest
  end.

(** The number of [True] entries of a correctness log. *)
Definition correct_count (log : list bool) : nat :=
  List.length (filter (fun c => c) log).

(** [n] upward steps of the staircase from angle [a] under the cap [mx]. *)
Definition up_steps (n : nat) (mx a : float) : float :=
  Nat.iter n (fun a => py_min mx (PrimFloat.mul a 1.25%float)) a.

(** What [jnd_experiment.__init__] leaves behind: the staircase attributes,
    [self.generator] and [self.tone]. *)
Record instance : Type := mk_instance {
  staircase : t;
  generator : generate_ITD.t;
  tone : list R
}.

(** [Axes.set_ylim(bottom, top)] as far as it can fail: matplotlib raises
    [ValueError] ("Axis limits cannot be NaN or Inf") when a limit is not a
    finite number.  Equal limits only give a warning. *)
Definition set_ylim (bottom top : float) : outcome unit :=
  if (PrimFloat.is_finite bottom && PrimFloat.is_finite top)%bool
  then Returned tt else Raised_ValueError.

(** The whole of [jnd_experiment.__init__] (lines 20-47): the default
    generator, the 0.2 s tone, the attribute assignments and the plot
    set-up.  Of the pyplot calls only [set_ylim(0, max_angle * 1.1)] on
    line 47 reads an argument; the others ([ion], [subplots], [plot], the
    labels and the legend) take constants and are not modelled. *)
Definition construct (max_trials : Z) (start_angle min_angle max_angle : float)
  : outcome instance :=
  match generate_ITD.init 44100%R 0.0875%R 343%R with
  | Returned generator =>
      match generate_ITD.play_test_tone generator 750%R 0.2%R with
      | Returned tone =>
          match init max_trials start_angle min_angle max_angle with
          | Returned self =>
              match set_ylim 0%float (PrimFloat.mul max_angle 1.1%float) with
              | Returned _ =>
                  Returned {| staircase := self;
                              generator := generator;
                              tone := tone |}
              | _ => Raised_ValueError
              end
          | _ => Raised_ValueError
          end
      | _ => Raised_ValueError
      end
  | _ => Raised_ValueError
  end.

End jnd_experiment.

(** * Properties of the staircase controller *)

Module StaircaseFacts.

Import jnd_experiment.
Local Open Scope Z_scope.

(** ** Field lemmas *)

Lemma adjust_angle_reversals (self : t) (difficulty : bool) :
  reversals (adjust_angle self difficulty) =
  match last_direction self with
  | Some d =>
      if direction_eqb (if difficulty then down else up) d
      then reversals self else reversals self + 1
  | None => reversals self
  end.
Proof.
  unfold adjust_angle; cbn.
  destruct (last_direction self) as [d|]; [|reflexivity].
  destruct difficulty, d; reflexivity.
Qed.

Lemma adjust_angle_last_direction (self : t) (difficulty : bool) :
  last_direction (adjust_angle self difficulty) =
  Some (if difficulty then down else up).
Proof. reflexivity. Qed.

(** The update either leaves the staircase alone or calls
    [adjust_angle] with [difficulty = False]; there is no other call. *)
Lemma update_staircase_cases (self : t) (c : bool) (ta : float) :
  update_staircase self c ta = log_trial self ta c
  \/ update_staircase self c ta = log_trial (bump_streak self) ta c
  \/ update_staircase self c ta =
     log_trial (adjust_angle (bump_streak self) false) ta c.
Proof.
  unfold update_staircase. destruct c; [|now left].
  destruct (2 <=? correct_streak (bump_streak self)); [right; right|right; left];
    reflexivity.
Qed.

Lemma update_staircase_max_trials (self : t) (c : bool) (ta : float) :
  max_trials (update_staircase self c ta) = max_trials self.
Proof.
  unfold update_staircase. destruct c; [|reflexivity].
  destruct (2 <=? correct_streak (bump_streak self)); reflexivity.
Qed.

Lemma update_staircase_histories (self : t) (c : bool) (ta : float) :
  history_angle (update_staircase self c ta) = history_angle self ++ [ta]
  /\ history_correct (update_staircase self c ta) = history_correct self ++ [c].
Proof.
  unfold update_staircase. destruct c; [|split; reflexivity].
  destruct (2 <=? correct_streak (bump_streak self)); split; reflexivity.
Qed.

(** ** One trial *)

Lemma trial_run_unfold (self : t) (w : world) :
  trial_run self w =
  ((score_of self w, target_of self w),
   update_staircase self (score_of self w) (target_of self w),
   {| draws := draws w; drawn := S (S (drawn w));
      replies := replies w; prompted := S (prompted w);
      played :=
        (if order_of w =? 0 then target_of self w else 0%float)
        :: (if order_of w =? 0 then 0%float else target_of self w)
        :: played w |}).
Proof. reflexivity. Qed.

Lemma step_unfold (self : t) (w : world) :
  step self w =
  (update_staircase self (score_of self w) (target_of self w),
   snd (trial_run self w)).
Proof. reflexivity. Qed.

Lemma step_max_trials (self : t) (w : world) :
  max_trials (fst (step self w)) = max_trials self.
Proof. rewrite step_unfold. cbn [fst]. apply update_staircase_max_trials. Qed.

Lemma after_trials_S (k : nat) (self : t) (w : world) :
  after_trials (S k) self w =
  after_trials k (fst (step self w)) (snd (step self w)).
Proof. cbn [after_trials]. destruct (step self w); reflexivity. Qed.

Lemma after_trials_snoc (k : nat) : forall (self : t) (w : world),
  after_trials (S k) self w =
  step (fst (after_trials k self w)) (snd (after_trials k self w)).
Proof.
  induction k as [|k IH]; intros self w.
  - cbn. destruct (step self w); reflexivity.
  - rewrite after_trials_S, IH, <- after_trials_S. reflexivity.
Qed.

Lemma after_trials_max_trials (k : nat) : forall (self : t) (w : world),
  max_trials (fst (after_trials k self w)) = max_trials self.
Proof.
  induction k as [|k IH]; intros self w; [reflexivity|].
  rewrite after_trials_S, IH. apply step_max_trials.
Qed.

Lemma after_trials_history_length (k : nat) : forall (self : t) (w : world),
  List.length (history_angle (fst (after_trials k self w)))
    = (List.length (history_angle self) + k)%nat
  /\ List.length (history_correct (fst (after_trials k self w)))
    = (List.length (history_correct self) + k)%nat.
Proof.
  induction k as [|k IH]; intros self w.
  - cbn. split; lia.
  - rewrite after_trials_S.
    destruct (IH (fst (step self w)) (snd (step self w))) as [Ha Hc].
    rewrite Ha, Hc, step_unfold. cbn [fst].
    destruct (update_staircase_histories self (score_of self w) (target_of self w))
      as [-> ->].
    rewrite !length_app. cbn. split; lia.
Qed.

Lemma after_trials_prompted (k : nat) : forall (self : t) (w : world),
  prompted (snd (after_trials k self w)) = (prompted w + k)%nat.
Proof.
  induction k as [|k IH]; intros self w.
  - cbn. lia.
  - rewrite after_trials_S, IH. cbn. lia.
Qed.

(** ** The session loop *)

(** With enough fuel the loop always reaches its exit. *)
Lemma run_loop_total (fuel : nat) : forall (trial : Z) (self : t) (w : world),
  max_trials self - trial <= Z.of_nat fuel ->
  exists r, run_loop fuel trial self w = Some r.
Proof.
  induction fuel as [|fuel IH]; intros trial self w Hfuel.
  - cbn. replace (trial <? max_trials self) with false by (symmetry; apply Z.ltb_ge; lia).
    cbn. eauto.
  - cbn [run_loop].
    destruct ((trial <? max_trials self) && (reversals self <? 10))%bool; [|eauto].
    rewrite trial_run_unfold. apply IH.
    rewrite update_staircase_max_trials. lia.
Qed.

Lemma run_total (self : t) (w : world) : exists r, run self w = Some r.
Proof. apply run_loop_total. lia. Qed.

(** While [reversals] stays below 10 the loop performs exactly the missing
    [max_trials - trial] trials and leaves through the trial-count test. *)
Lemma run_loop_counts (n : nat) :
  forall (fuel : nat) (trial : Z) (self : t) (w : world),
  n = Z.to_nat (max_trials self - trial) ->
  (n <= fuel)%nat ->
  (forall k, (k < n)%nat -> reversals (fst (after_trials k self w)) < 10) ->
  run_loop fuel trial self w =
  Some (fst (after_trials n self w), snd (after_trials n self w),
        Z.max trial (max_trials self)).
Proof.
  induction n as [|n IH]; intros fuel trial self w Hn Hfuel Hrev.
  - assert (Hge : max_trials self <= trial) by lia.
    destruct fuel; cbn [run_loop];
      (replace (trial <? max_trials self) with false by (symmetry; apply Z.ltb_ge; lia));
      cbn; rewrite Z.max_l by lia; reflexivity.
  - destruct fuel as [|fuel]; [lia|].
    cbn [run_loop].
    replace (trial <? max_trials self) with true by (symmetry; apply Z.ltb_lt; lia).
    replace (reversals self <? 10) with true
      by (symmetry; apply Z.ltb_lt; apply (Hrev 0%nat); lia).
    cbn [andb]. rewrite after_trials_S, step_unfold, trial_run_unfold.
    cbn [fst snd].
    rewrite (IH fuel (trial + 1)).
    + rewrite update_staircase_max_trials. f_equal. f_equal. lia.
    + rewrite update_staircase_max_trials. lia.
    + lia.
    + intros k Hk. specialize (Hrev (S k) ltac:(lia)).
      rewrite after_trials_S, step_unfold, trial_run_unfold in Hrev. exact Hrev.
Qed.

(** ** The staircase never steps down *)

Lemma update_staircase_only_up (self : t) (c : bool) (ta : float) :
  only_up self -> only_up (update_staircase self c ta).
Proof.
  intros [Hd Hr].
  destruct (update_staircase_cases self c ta) as [-> | [-> | ->]];
    split; cbn; try assumption; try discriminate.
  destruct (last_direction self) as [[|]|]; cbn; congruence.
Qed.

Lemma after_trials_only_up (k : nat) : forall (self : t) (w : world),
  only_up self -> only_up (fst (after_trials k self w)).
Proof.
  induction k as [|k IH]; intros self w H; [exact H|].
  rewrite after_trials_S. apply IH. rewrite step_unfold. cbn [fst].
  now apply update_staircase_only_up.
Qed.

(** ** Claims *)

(** C6. From any object with no stored direction, the calls
    [adjust_angle(False)], [adjust_angle(True)], [adjust_angle(False)],
    [adjust_angle(True)] (up, down, up, down) raise [reversals] by exactly
    three: the first call, which only sets the direction, counts nothing, and
    each of the three later calls counts one. *)
Theorem C6_up_down_up_down_counts_three (self : t) :
  last_direction self = None ->
  reversals (adjust_each self [false]) = reversals self
  /\ reversals (adjust_each self [false; true]) = reversals self + 1
  /\ reversals (adjust_each self [false; true; false]) = reversals self + 2
  /\ reversals (adjust_each self [false; true; false; true]) = reversals self + 3.
Proof.
  intros Hnone. unfold adjust_each. cbn [fold_left].
  rewrite !adjust_angle_reversals, !adjust_angle_last_direction, Hnone.
  cbn. repeat split; lia.
Qed.

Lemma C6_up_down_up_down_counts_three_witness :
  last_direction (session 10) = None
  /\ reversals (adjust_each (session 10) [false; true; false; true]) = 3.
Proof.
  split; [reflexivity|].
  exact (proj2 (proj2 (proj2
    (C6_up_down_up_down_counts_three (session 10) eq_refl)))).
Defined.

(** C7. If [max_trials] is 5 and [reversals] is below 10 before each of the
    five trials, [run] returns after exactly five calls of [trial_run]: the
    local [trial] ends at 5 and each history has grown by exactly five
    entries. *)
Theorem C7_five_trials_five_records (self : t) (w : world) :
  max_trials self = 5 ->
  (forall k, (k < 5)%nat -> reversals (fst (after_trials k self w)) < 10) ->
  exists self' w',
    run self w = Some (self', w', 5)
    /\ (self', w') = after_trials 5 self w
    /\ List.length (history_angle self')
       = (List.length (history_angle self) + 5)%nat
    /\ List.length (history_correct self')
       = (List.length (history_correct self) + 5)%nat.
Proof.
  intros Hmax Hrev.
  exists (fst (after_trials 5 self w)), (snd (after_trials 5 self w)).
  split; [|split; [symmetry; apply surjective_pairing
                  |apply after_trials_history_length]].
  unfold run. rewrite Hmax.
  rewrite (run_loop_counts 5); rewrite ?Hmax;
    try reflexivity; try assumption; cbn; lia.
Qed.

Lemma C7_five_trials_five_records_witness :
  exists self' w',
    run (session 5) (scripted [] ["2"; "2"; "1"; "2"; "2"]%string)
      = Some (self', w', 5)
    /\ List.length (history_angle self') = 5%nat
    /\ List.length (history_correct self') = 5%nat.
Proof.
  destruct (C7_five_trials_five_records (session 5)
              (scripted [] ["2"; "2"; "1"; "2"; "2"]%string))
    as (self' & w' & Hrun & _ & Ha & Hc).
  - reflexivity.
  - intros k Hk.
    do 5 (destruct k as [|k]; [vm_compute; reflexivity|]). lia.
  - exists self', w'. repeat split; assumption.
Defined.

(** C8, counterexample.  The reply [" 1"] is not one of the two labels, yet
    line 76 strips it to ["1"] before the test of line 77: with the target
    on the right ([+10.0]) in the second interval ([order = 0]) the trial is
    scored correct. *)
Lemma C8_padded_label_is_scored_correct :
  let w := scripted [true; false] [" 1"%string] in
  replies w (prompted w) <> "1"%string
  /\ replies w (prompted w) <> "2"%string
  /\ fst (fst (trial_run (session 10) w)) = (true, 10%float).
Proof.
  cbv zeta. split; [|split].
  - cbn. discriminate.
  - cbn. discriminate.
  - vm_compute. reflexivity.
Qed.

(** C8, amended.  Every reply that, once leading and trailing whitespace is
    stripped, is neither ["1"] nor ["2"] is scored incorrect: [trial_run]
    returns [False], prompts exactly once, changes nothing of the staircase
    but the two appended log entries, and the loop of [run] goes on with
    the next trial. *)
Theorem C8_invalid_reply_is_scored_incorrect (self : t) (w : world) :
  strip (replies w (prompted w)) <> "1"%string ->
  strip (replies w (prompted w)) <> "2"%string ->
  exists ta w',
    trial_run self w = ((false, ta), log_trial self ta false, w')
    /\ prompted w' = S (prompted w)
    /\ forall fuel trial,
         trial < max_trials self -> reversals self < 10 ->
         run_loop (S fuel) trial self w
         = run_loop fuel (trial + 1) (log_trial self ta false) w'.
Proof.
  intros H1 H2.
  assert (Hs : score_of self w = false).
  { unfold score_of, score.
    destruct (String.eqb_spec (strip (replies w (prompted w))) "1"); [contradiction|].
    destruct (String.eqb_spec (strip (replies w (prompted w))) "2"); [contradiction|].
    reflexivity. }
  pose proof (trial_run_unfold self w) as Ht. rewrite Hs in Ht.
  eexists _, _. split; [exact Ht|]. split; [reflexivity|].
  intros fuel trial Hlt Hrev. cbn [run_loop].
  replace (trial <? max_trials self) with true by (symmetry; apply Z.ltb_lt; lia).
  replace (reversals self <? 10) with true by (symmetry; apply Z.ltb_lt; lia).
  cbn [andb]. rewrite Ht. reflexivity.
Qed.

Lemma C8_invalid_reply_is_scored_incorrect_witness :
  exists ta w',
    trial_run (session 10) (scripted [] ["left"%string])
    = ((false, ta), log_trial (session 10) ta false, w')
    /\ prompted w' = 1%nat.
Proof.
  destruct (C8_invalid_reply_is_scored_incorrect (session 10)
              (scripted [] ["left"%string]))
    as (ta & w' & Ht & Hp & _).
  - vm_compute. discriminate.
  - vm_compute. discriminate.
  - exists ta, w'. split; [exact Ht | exact Hp].
Defined.

(** C10. In a session started from [__init__], whatever is drawn and typed:
    every trial leaves the staircase alone or calls [adjust_angle] with
    [difficulty = False]; after any number of trials [last_direction] is not
    ['down'] and [reversals] is 0; and [run] returns with
    [trial = max(0, max_trials)], having left the loop through the
    trial-count test while the reversal test still held. *)
Theorem C10_staircase_only_steps_up
    (mt : Z) (sa mn mx : float) (w : world) (s0 : t) :
  init mt sa mn mx = Returned s0 ->
  (forall k,
     let s := fst (after_trials k s0 w) in
     let s' := fst (after_trials (S k) s0 w) in
     last_direction s <> Some down /\ reversals s = 0
     /\ exists c ta,
          s' = log_trial s ta c
          \/ s' = log_trial (bump_streak s) ta c
          \/ s' = log_trial (adjust_angle (bump_streak s) false) ta c)
  /\ exists self' w',
       run s0 w = Some (self', w', Z.max 0 mt)
       /\ (self', w') = after_trials (Z.to_nat mt) s0 w
       /\ (Z.max 0 mt <? max_trials self') = false
       /\ (reversals self' <? 10) = true.
Proof.
  intros Hinit. injection Hinit as <-.
  set (s0 := {| angle := sa |}).
  assert (H0 : only_up s0) by (split; [discriminate|reflexivity]).
  split.
  - intros k. cbv zeta.
    destruct (after_trials_only_up k s0 w H0) as [Hd Hr].
    split; [exact Hd|]. split; [exact Hr|].
    rewrite after_trials_snoc, step_unfold. cbn [fst].
    eexists _, _. apply update_staircase_cases.
  - exists (fst (after_trials (Z.to_nat mt) s0 w)),
           (snd (after_trials (Z.to_nat mt) s0 w)).
    split; [|split; [symmetry; apply surjective_pairing|split]].
    + unfold run. change (max_trials s0) with mt.
      rewrite (run_loop_counts (Z.to_nat mt)).
      * reflexivity.
      * change (max_trials s0) with mt. f_equal. lia.
      * lia.
      * intros k _. destruct (after_trials_only_up k s0 w H0) as [_ ->]. lia.
    + rewrite after_trials_max_trials. change (max_trials s0) with mt.
      apply Z.ltb_ge. lia.
    + destruct (after_trials_only_up (Z.to_nat mt) s0 w H0) as [_ ->].
      reflexivity.
Qed.

Lemma C10_staircase_only_steps_up_witness :
  exists self' w',
    run (session 10) (scripted [] (repeat "2"%string 10)) = Some (self', w', 10)
    /\ (reversals self' <? 10) = true.
Proof.
  destruct (C10_staircase_only_steps_up 10 10%float 0%float 90%float
              (scripted [] (repeat "2"%string 10)) (session 10) eq_refl)
    as (_ & self' & w' & Hrun & _ & _ & Hrev).
  exists self', w'. split; [exact Hrun | exact Hrev].
Defined.

(** ** The scenario of five trials *)

Lemma after_trials_replay (k : nat) : forall (self : t) (w : world),
  fst (after_trials k self w) = replay self (outcomes k self w).
Proof.
  induction k as [|k IH]; intros self w; [reflexivity|].
  rewrite after_trials_S, IH. cbn [outcomes replay fold_left fst snd].
  rewrite step_unfold. reflexivity.
Qed.

Lemma outcomes_firstn (i : nat) : forall (k : nat) (self : t) (w : world),
  (i <= k)%nat -> firstn i (outcomes k self w) = outcomes i self w.
Proof.
  induction i as [|i IH]; intros k self w Hik; [reflexivity|].
  destruct k as [|k]; [lia|]. cbn [outcomes firstn].
  f_equal. apply IH. lia.
Qed.

Lemma outcomes_length (k : nat) : forall (self : t) (w : world),
  List.length (outcomes k self w) = k.
Proof.
  induction k as [|k IH]; intros self w; cbn; [reflexivity|].
  now rewrite IH.
Qed.

Lemma replay_history_correct (trials : list (bool * float)) : forall self : t,
  history_correct (replay self trials) = history_correct self ++ map fst trials.
Proof.
  induction trials as [|[c ta] trials IH]; intros self; cbn.
  - now rewrite app_nil_r.
  - unfold replay in IH. rewrite IH.
    destruct (update_staircase_histories self c ta) as [_ ->].
    now rewrite <- app_assoc.
Qed.

(** C1. From [start_angle = 10], [min_angle = 0], [max_angle = 90], five
    trials scored correct, correct, incorrect, correct, correct leave
    [reversals] at 0, but [self.angle] runs through
    [10, 10, 12.5, 12.5, 15.625, 19.53125], not through
    [10, 10, 12.5, 12.5, 12.5, 15.625]: [correct_streak] is never set back,
    it stands at 3 and 4 after the last two trials, and each of them steps
    the angle. *)
Theorem C1_scenario_steps_on_every_later_correct_trial
    (mt : Z) (w : world) (s0 : t) :
  init mt 10%float 0%float 90%float = Returned s0 ->
  history_correct (fst (after_trials 5 s0 w))
    = [true; true; false; true; true] ->
  angle_trace 5 s0 w = [10; 10; 12.5; 12.5; 15.625; 19.53125]%float
  /\ angle_trace 5 s0 w <> [10; 10; 12.5; 12.5; 12.5; 15.625]%float
  /\ map (fun k => correct_streak (fst (after_trials k s0 w))) (seq 0 6)
     = [0; 1; 2; 2; 3; 4]
  /\ reversals (fst (after_trials 5 s0 w)) = 0.
Proof.
  intros Hinit Hpat. injection Hinit as <-.
  set (s0 := {| angle := 10%float |}) in *.
  assert (Hpre : forall i, (i <= 5)%nat ->
            fst (after_trials i s0 w) = replay s0 (firstn i (outcomes 5 s0 w))).
  { intros i Hi. rewrite outcomes_firstn by exact Hi. apply after_trials_replay. }
  rewrite after_trials_replay, replay_history_correct in Hpat.
  pose proof (outcomes_length 5 s0 w) as Hlen.
  destruct (outcomes 5 s0 w) as [|[c1 t1] [|[c2 t2] [|[c3 t3] [|[c4 t4]
    [|[c5 t5] [|? ?]]]]]]; try discriminate Hlen.
  cbn in Hpat. injection Hpat as -> -> -> -> ->.
  assert (Htrace :
    angle_trace 5 s0 w = [10; 10; 12.5; 12.5; 15.625; 19.53125]%float).
  { unfold angle_trace. cbn [seq map].
    rewrite !Hpre by lia. vm_compute. reflexivity. }
  split; [exact Htrace|]. split; [|split].
  - rewrite Htrace. intros Heq.
    apply (f_equal (fun l => PrimFloat.eqb (nth 4 l 0%float) 12.5%float)) in Heq.
    vm_compute in Heq. discriminate Heq.
  - cbn [seq map]. rewrite !Hpre by lia. vm_compute. reflexivity.
  - rewrite Hpre by lia. vm_compute. reflexivity.
Qed.

Lemma C1_scenario_steps_on_every_later_correct_trial_witness :
  let w := scripted [] ["2"; "2"; "1"; "2"; "2"]%string in
  history_correct (fst (after_trials 5 (session 10) w))
    = [true; true; false; true; true]
  /\ angle_trace 5 (session 10) w
     = [10; 10; 12.5; 12.5; 15.625; 19.53125]%float.
Proof.
  cbv zeta. split; [vm_compute; reflexivity|].
  apply (C1_scenario_steps_on_every_later_correct_trial 10
           (scripted [] ["2"; "2"; "1"; "2"; "2"]%string) (session 10)).
  - reflexivity.
  - vm_compute. reflexivity.
Defined.

End StaircaseFacts.

(** * Properties of the binaural model and the signal shifter *)

Module ItdFacts.

Import generate_ITD.
Local Open Scope R_scope.

(** ** The shifter returns, with the length of its input *)

Lemma np_arange_length (n : nat) : List.length (np_arange n) = n.
Proof. unfold np_arange. now rewrite length_map, length_seq. Qed.

Lemma shifted_length (x : list R) (s : R) :
  List.length (shifted x s) = List.length x.
Proof. unfold shifted. now rewrite !length_map, np_arange_length. Qed.

Lemma fractional_shift_nil (s : R) : fractional_shift [] s = Raised_ValueError.
Proof. reflexivity. Qed.

Lemma fractional_shift_cons (a : R) (x : list R) (s : R) :
  fractional_shift (a :: x) s = Returned (shifted (a :: x) s).
Proof.
  unfold fractional_shift, np_interp.
  assert (Hlen : Nat.eqb (List.length (a :: x))
                         (List.length (np_arange (List.length (a :: x)))) = true).
  { rewrite np_arange_length. apply Nat.eqb_refl. }
  destruct (np_arange (List.length (a :: x))) as [|t0 ts] eqn:Ht.
  - discriminate Hlen.
  - rewrite Hlen. unfold shifted. rewrite Ht. reflexivity.
Qed.

Lemma itd_channels_nil (self : t) (angle_deg : R) :
  itd_channels self [] angle_deg = Raised_ValueError.
Proof.
  unfold itd_channels. destruct (Rle_dec 0 angle_deg); reflexivity.
Qed.

Lemma itd_channels_cons (self : t) (a : R) (x : list R) (angle_deg : R) :
  exists left_ right_,
    itd_channels self (a :: x) angle_deg = Returned (left_, right_)
    /\ List.length left_ = S (List.length x)
    /\ List.length right_ = S (List.length x).
Proof.
  unfold itd_channels.
  destruct (Rle_dec 0 angle_deg); rewrite !fractional_shift_cons;
    eexists _, _; (split; [reflexivity|]); rewrite !shifted_length; split; reflexivity.
Qed.

(** ** Shifts by a whole number of samples *)

Lemma interp_search_step (q x0 x1 f0 f1 : R) (xs fs : list R) :
  interp_search q (x0 :: x1 :: xs) (f0 :: f1 :: fs)
  = if Rlt_dec q x1
    then if Req_dec_T x0 q then f0
         else (f1 - f0) / (x1 - x0) * (q - x0) + f0
    else interp_search q (x1 :: xs) (f1 :: fs).
Proof. reflexivity. Qed.

Lemma interp_search_on_grid (fp : list R) : forall (a j : nat),
  (j < List.length fp)%nat ->
  interp_search (INR (a + j)) (map INR (seq a (List.length fp))) fp
  = nth j fp 0.
Proof.
  induction fp as [|f0 fs IH]; intros a j Hj; [cbn in Hj; lia|].
  destruct fs as [|f1 fs'].
  - cbn in Hj. assert (j = 0)%nat by lia. subst j. reflexivity.
  - change (List.length (f0 :: f1 :: fs')) with (S (List.length (f1 :: fs'))).
    rewrite <- cons_seq.
    change (List.length (f1 :: fs')) with (S (List.length fs')) at 1.
    rewrite <- cons_seq. cbn [map]. rewrite interp_search_step.
    destruct (Rlt_dec (INR (a + j)) (INR (S a))) as [Hlt|Hge].
    + apply INR_lt in Hlt. assert (j = 0)%nat by lia. subst j.
      rewrite Nat.add_0_r.
      destruct (Req_dec_T (INR a) (INR a)) as [_|Hne]; [reflexivity|].
      now contradiction Hne.
    + destruct j as [|j].
      * exfalso. apply Hge. apply lt_INR. lia.
      * replace (a + S j)%nat with (S a + j)%nat by lia.
        change (INR (S a) :: map INR (seq (S (S a)) (List.length fs')))
          with (map INR (seq (S a) (List.length (f1 :: fs')))).
        rewrite IH by (cbn in Hj |- *; lia). reflexivity.
Qed.

Lemma np_arange_hd (n : nat) : hd 0 (np_arange (S n)) = 0.
Proof. reflexivity. Qed.

Lemma np_arange_last (n : nat) : last (np_arange (S n)) 0 = INR n.
Proof.
  unfold np_arange. rewrite seq_S, map_app. cbn [map].
  now rewrite last_last.
Qed.

Lemma np_arange_nth (n i : nat) :
  (i < n)%nat -> nth i (np_arange n) 0 = INR i.
Proof.
  intros Hi. unfold np_arange.
  change 0 with (INR 0). rewrite map_nth, seq_nth by exact Hi. reflexivity.
Qed.

(** On a whole-number query the interpolation reads one sample, or the
    zero padding outside the grid. *)
Lemma interp_one_on_grid (x : list R) (m : Z) :
  x <> [] ->
  interp_one (IZR m) (np_arange (List.length x)) x 0 0 = sample x m.
Proof.
  intros Hx. destruct x as [|a x]; [now contradiction Hx|].
  unfold interp_one, sample.
  change (List.length (a :: x)) with (S (List.length x)).
  rewrite np_arange_last, np_arange_hd.
  rewrite INR_IZR_INZ.
  destruct (Rlt_dec (IZR (Z.of_nat (List.length x))) (IZR m)) as [Hhi|Hhi].
  - apply lt_IZR in Hhi.
    replace (m <? Z.of_nat (S (List.length x)))%Z with false
      by (symmetry; apply Z.ltb_ge; lia).
    now rewrite andb_false_r.
  - assert (Hm : (m <= Z.of_nat (List.length x))%Z).
    { apply Z.le_ngt. intros Hc. apply Hhi. now apply IZR_lt. }
    destruct (Rlt_dec (IZR m) 0) as [Hlo|Hlo].
    + apply lt_IZR in Hlo.
      replace (0 <=? m)%Z with false by (symmetry; apply Z.leb_gt; lia).
      reflexivity.
    + assert (H0 : (0 <= m)%Z).
      { apply Z.le_ngt. intros Hc. apply Hlo. now apply IZR_lt. }
      replace (0 <=? m)%Z with true by (symmetry; apply Z.leb_le; lia).
      replace (m <? Z.of_nat (S (List.length x)))%Z with true
        by (symmetry; apply Z.ltb_lt; lia).
      cbn [andb].
      replace (IZR m) with (INR (0 + Z.to_nat m))
        by (rewrite INR_IZR_INZ; f_equal; lia).
      apply (interp_search_on_grid (a :: x) 0 (Z.to_nat m)).
      cbn [List.length]. lia.
Qed.

(** A shift by [z] whole samples moves every sample by [z] places. *)
Lemma shifted_by_integer (x : list R) (z : Z) (i : nat) :
  (i < List.length x)%nat ->
  nth i (shifted x (IZR z)) 0 = sample x (Z.of_nat i - z).
Proof.
  intros Hi. assert (Hx : x <> []) by (destruct x; [cbn in Hi; lia|discriminate]).
  unfold shifted.
  set (f := fun q => interp_one q (np_arange (List.length x)) x 0 0).
  set (g := fun ti => ti - IZR z).
  rewrite (nth_indep _ 0 (f (g 0)))
    by (rewrite !length_map, np_arange_length; exact Hi).
  rewrite map_nth, map_nth, np_arange_nth by exact Hi.
  unfold f, g. rewrite INR_IZR_INZ, <- minus_IZR.
  now apply interp_one_on_grid.
Qed.

(** ** The delay model *)

Lemma np_clip_odd (x : R) :
  np_clip (- x) (- PI / 2) (PI / 2) = - np_clip x (- PI / 2) (PI / 2).
Proof.
  pose proof PI_RGT_0. unfold np_clip, Rmin, Rmax.
  repeat destruct Rle_dec; lra.
Qed.

Lemma np_clip_range (x : R) :
  - (PI / 2) <= np_clip x (- PI / 2) (PI / 2) <= PI / 2.
Proof.
  pose proof PI_RGT_0. unfold np_clip, Rmin, Rmax.
  repeat destruct Rle_dec; lra.
Qed.

Lemma np_clip_mono (x y : R) :
  x <= y -> np_clip x (- PI / 2) (PI / 2) <= np_clip y (- PI / 2) (PI / 2).
Proof.
  pose proof PI_RGT_0. unfold np_clip, Rmin, Rmax.
  repeat destruct Rle_dec; lra.
Qed.

Lemma np_clip_sign (x : R) :
  (0 <= x -> 0 <= np_clip x (- PI / 2) (PI / 2))
  /\ (x < 0 -> np_clip x (- PI / 2) (PI / 2) < 0).
Proof.
  pose proof PI_RGT_0. unfold np_clip, Rmin, Rmax.
  repeat destruct Rle_dec; lra.
Qed.

Lemma np_radians_mono (a b : R) : a <= b -> np_radians a <= np_radians b.
Proof.
  intros H. unfold np_radians. pose proof PI_RGT_0.
  apply Rmult_le_compat_r; lra.
Qed.

Lemma np_radians_sign (a : R) :
  (0 <= a -> 0 <= np_radians a) /\ (a < 0 -> np_radians a < 0).
Proof.
  unfold np_radians. pose proof PI_RGT_0 as Hpi.
  split; intros Ha; nra.
Qed.

Lemma head_ratio_pos (self : t) :
  0 < avg_head_r self -> 0 < speed_of_sound self ->
  0 < avg_head_r self / speed_of_sound self.
Proof. intros Hr Hc. now apply Rdiv_lt_0_compat. Qed.

(** The delay is an odd function of the azimuth. *)
Lemma woodworth_model_odd (self : t) (angle_deg : R) :
  woodworth_model self (- angle_deg) = - woodworth_model self angle_deg.
Proof.
  unfold woodworth_model.
  replace (np_radians (- angle_deg)) with (- np_radians angle_deg)
    by (unfold np_radians; lra).
  rewrite np_clip_odd, sin_neg. lra.
Qed.

Lemma woodworth_model_nonneg (self : t) (angle_deg : R) :
  0 < avg_head_r self -> 0 < speed_of_sound self ->
  0 <= angle_deg -> 0 <= woodworth_model self angle_deg.
Proof.
  intros Hr Hc Ha. pose proof (head_ratio_pos self Hr Hc) as Hk.
  unfold woodworth_model.
  pose proof (np_clip_range (np_radians angle_deg)) as [Hlo Hhi].
  pose proof (proj1 (np_clip_sign (np_radians angle_deg))
                (proj1 (np_radians_sign angle_deg) Ha)) as H0.
  pose proof PI_RGT_0.
  assert (0 <= sin (np_clip (np_radians angle_deg) (- PI / 2) (PI / 2)))
    by (apply sin_ge_0; lra).
  apply Rmult_le_pos; lra.
Qed.

Lemma woodworth_model_neg (self : t) (angle_deg : R) :
  0 < avg_head_r self -> 0 < speed_of_sound self ->
  angle_deg < 0 -> woodworth_model self angle_deg < 0.
Proof.
  intros Hr Hc Ha. pose proof (head_ratio_pos self Hr Hc) as Hk.
  unfold woodworth_model.
  pose proof (np_clip_range (np_radians angle_deg)) as [Hlo Hhi].
  pose proof (proj2 (np_clip_sign (np_radians angle_deg))
                (proj2 (np_radians_sign angle_deg) Ha)) as H0.
  pose proof PI_RGT_0.
  assert (sin (np_clip (np_radians angle_deg) (- PI / 2) (PI / 2)) < 0)
    by (apply sin_lt_0_var; lra).
  nra.
Qed.

(** The delay is non-decreasing in the signed azimuth. *)
Lemma woodworth_model_mono (self : t) (a b : R) :
  0 < avg_head_r self -> 0 < speed_of_sound self ->
  a <= b -> woodworth_model self a <= woodworth_model self b.
Proof.
  intros Hr Hc Hab. pose proof (head_ratio_pos self Hr Hc) as Hk.
  unfold woodworth_model.
  pose proof (np_clip_range (np_radians a)) as [Hlo Hhi].
  pose proof (np_clip_range (np_radians b)) as [Hlo' Hhi'].
  pose proof (np_clip_mono _ _ (np_radians_mono a b Hab)) as Hc'.
  assert (sin (np_clip (np_radians a) (- PI / 2) (PI / 2))
          <= sin (np_clip (np_radians b) (- PI / 2) (PI / 2)))
    by (apply sin_incr_1; lra).
  apply Rmult_le_compat_l; lra.
Qed.

(** The magnitude of the delay is the delay of the magnitude of the
    azimuth. *)
Lemma woodworth_model_Rabs (self : t) (angle_deg : R) :
  0 < avg_head_r self -> 0 < speed_of_sound self ->
  Rabs (woodworth_model self angle_deg) = woodworth_model self (Rabs angle_deg).
Proof.
  intros Hr Hc. destruct (Rle_lt_dec 0 angle_deg) as [Hpos|Hneg].
  - rewrite (Rabs_pos_eq angle_deg) by exact Hpos.
    apply Rabs_pos_eq. now apply woodworth_model_nonneg.
  - rewrite (Rabs_left angle_deg) by exact Hneg.
    rewrite Rabs_left by now apply woodworth_model_neg.
    now rewrite woodworth_model_odd.
Qed.

Lemma woodworth_model_0 (self : t) : woodworth_model self 0 = 0.
Proof.
  unfold woodworth_model, np_radians. rewrite Rmult_0_l.
  replace (np_clip 0 (- PI / 2) (PI / 2)) with 0.
  - rewrite sin_0. lra.
  - pose proof PI_RGT_0. unfold np_clip, Rmin, Rmax.
    repeat destruct Rle_dec; lra.
Qed.

(** ** Peak normalisation *)

Lemma fold_Rmax_ge (vs : list R) : forall v : R,
  v <= fold_left Rmax vs v /\ Forall (fun u => u <= fold_left Rmax vs v) vs.
Proof.
  induction vs as [|u vs IH]; intros v; cbn.
  - split; [lra|constructor].
  - destruct (IH (Rmax v u)) as [H1 H2].
    pose proof (Rmax_l v u). pose proof (Rmax_r v u).
    split; [lra|]. constructor; [lra|exact H2].
Qed.

Lemma fold_Rmax_le (b : R) (vs : list R) : forall v : R,
  v <= b -> Forall (fun u => u <= b) vs -> fold_left Rmax vs v <= b.
Proof.
  induction vs as [|u vs IH]; intros v Hv Hvs; cbn; [exact Hv|].
  inversion Hvs; subst. apply IH; [|assumption].
  now apply Rmax_lub.
Qed.

Lemma bounded_by_entries (b : R) (stereo : list (R * R)) :
  bounded_by b stereo <->
  Forall (fun u => u <= b)
         (flat_map (fun p => [Rabs (fst p); Rabs (snd p)]) stereo).
Proof.
  unfold bounded_by. induction stereo as [|p stereo IH]; cbn.
  - split; constructor.
  - split; intros H.
    + inversion H as [|? ? [Hl Hr] Hrest]; subst.
      constructor; [exact Hl|]. constructor; [exact Hr|]. now apply IH.
    + inversion H as [|? ? Hl H']; subst. inversion H' as [|? ? Hr Hrest]; subst.
      constructor; [split; assumption|]. now apply IH.
Qed.

(** The peak of a non-empty array exists, bounds every entry, and is itself
    bounded by any bound of the entries. *)
Lemma np_max_abs_spec (p : R * R) (stereo : list (R * R)) :
  exists peak,
    np_max_abs (p :: stereo) = Returned peak
    /\ bounded_by peak (p :: stereo)
    /\ forall b, bounded_by b (p :: stereo) -> peak <= b.
Proof.
  unfold np_max_abs.
  set (vs := flat_map (fun q => [Rabs (fst q); Rabs (snd q)]) (p :: stereo)).
  assert (Hvs : vs = Rabs (fst p) :: Rabs (snd p)
                     :: flat_map (fun q => [Rabs (fst q); Rabs (snd q)]) stereo)
    by reflexivity.
  rewrite Hvs. eexists. split; [reflexivity|]. split.
  - apply bounded_by_entries. fold vs. rewrite Hvs.
    destruct (fold_Rmax_ge
                (Rabs (snd p) :: flat_map (fun q => [Rabs (fst q); Rabs (snd q)]) stereo)
                (Rabs (fst p))) as [H1 H2].
    constructor; assumption.
  - intros b Hb. apply bounded_by_entries in Hb. fold vs in Hb. rewrite Hvs in Hb.
    inversion Hb; subst. now apply fold_Rmax_le.
Qed.

Lemma scale_stereo_length (k : R) (stereo : list (R * R)) :
  List.length (scale_stereo k stereo) = List.length stereo.
Proof. apply length_map. Qed.

Lemma Rabs_div_le (v k b : R) :
  0 < k -> Rabs v <= b -> Rabs (v / k) <= b / k.
Proof.
  intros Hk Hv. unfold Rdiv. rewrite Rabs_mult, (Rabs_pos_eq (/ k)).
  - apply Rmult_le_compat_r; [|exact Hv]. left. now apply Rinv_0_lt_compat.
  - left. now apply Rinv_0_lt_compat.
Qed.

Lemma scale_stereo_bounded (k : R) (stereo : list (R * R)) :
  0 < k -> bounded_by k stereo -> bounded_by 1 (scale_stereo k stereo).
Proof.
  intros Hk H. unfold bounded_by, scale_stereo in *.
  apply Forall_map. eapply Forall_impl; [|exact H].
  intros [l r] [Hl Hr]; cbn in *.
  replace 1 with (k / k) by (field; lra).
  split; now apply Rabs_div_le.
Qed.

Lemma scale_stereo_no_louder (k : R) (stereo : list (R * R)) :
  1 < k -> no_louder (scale_stereo k stereo) stereo.
Proof.
  intros Hk. unfold no_louder, scale_stereo.
  induction stereo as [|[l r] stereo IH]; cbn; constructor; [|exact IH].
  assert (Hd : forall v, Rabs (v / k) <= Rabs v).
  { intros v. pose proof (Rabs_div_le v k (Rabs v) ltac:(lra) (Rle_refl _)) as H.
    pose proof (Rabs_pos v) as Hv.
    apply (Rle_trans _ _ _ H). unfold Rdiv.
    rewrite <- (Rmult_1_r (Rabs v)) at 2.
    apply Rmult_le_compat_l; [exact Hv|].
    rewrite <- Rinv_1. apply Rinv_le_contravar; lra. }
  cbn. split; apply Hd.
Qed.

Lemma no_louder_refl (stereo : list (R * R)) : no_louder stereo stereo.
Proof.
  unfold no_louder. induction stereo; constructor; [split; lra|assumption].
Qed.

(** [peak_normalise] on a non-empty array: it returns, keeps the length,
    leaves an array that is within [1.0] untouched, and otherwise divides by
    the peak, which brings every entry within [1.0] and raises none. *)
Lemma peak_normalise_spec (p : R * R) (stereo : list (R * R)) :
  exists s,
    peak_normalise (p :: stereo) = Returned s
    /\ List.length s = List.length (p :: stereo)
    /\ bounded_by 1 s
    /\ no_louder s (p :: stereo)
    /\ (bounded_by 1 (p :: stereo) -> s = p :: stereo)
    /\ (~ bounded_by 1 (p :: stereo) ->
        exists peak, 1 < peak /\ np_max_abs (p :: stereo) = Returned peak
                     /\ s = scale_stereo peak (p :: stereo)).
Proof.
  unfold peak_normalise.
  destruct (np_max_abs_spec p stereo) as (peak & -> & Hub & Hleast).
  destruct (Rlt_dec 1 peak) as [Hgt|Hle].
  - eexists. split; [reflexivity|]. split; [apply scale_stereo_length|].
    split; [apply scale_stereo_bounded; [lra|exact Hub]|].
    split; [now apply scale_stereo_no_louder|]. split.
    + intros Hb. apply Hleast in Hb. lra.
    + intros _. exists peak. repeat split; assumption.
  - eexists. split; [reflexivity|]. split; [reflexivity|].
    assert (Hb : bounded_by 1 (p :: stereo)).
    { unfold bounded_by in *. eapply Forall_impl; [|exact Hub].
      intros q [Hl Hr]. split; lra. }
    split; [exact Hb|]. split; [apply no_louder_refl|]. split.
    + reflexivity.
    + intros Hn. contradiction.
Qed.

Lemma ild_stereo_length (angle_deg : R) (left_ right_ : list R) :
  List.length left_ = List.length right_ ->
  List.length (ild_stereo angle_deg left_ right_) = List.length left_.
Proof.
  intros H. unfold ild_stereo. rewrite length_combine, !length_map, H.
  apply Nat.min_id.
Qed.

(** ** Claims *)

(** C3. With [use_ild = False] the call never returns a stereo signal: on a
    non-empty input control falls off the end of the body and the call
    returns [None]; on an empty input [np.interp] raises [ValueError]. *)
Theorem C3_no_level_cue_returns_none
    (self : t) (mono_signal : list R) (angle_deg : R) :
  apply_itd self mono_signal angle_deg false
  = match mono_signal with
    | [] => Raised_ValueError
    | _ :: _ => ReturnedNone
    end.
Proof.
  unfold apply_itd. destruct mono_signal as [|a x].
  - now rewrite itd_channels_nil.
  - destruct (itd_channels_cons self a x angle_deg) as (l & r & -> & _).
    reflexivity.
Qed.

(** C4. Whenever [apply_itd] returns a stereo signal (it does for every
    non-empty input with the level cue on), the signal has the length of the
    input and every entry is within [1.0] in absolute value.  The signal
    after the gains is returned as it is when it already lies within [1.0];
    otherwise it is divided by its peak, which is above [1.0]; in both cases
    no entry is louder than before normalisation. *)
Theorem C4_returned_stereo_is_within_unit_peak
    (self : t) (mono_signal : list R) (angle_deg : R) :
  (mono_signal <> [] ->
   exists s, apply_itd self mono_signal angle_deg true = Returned s)
  /\ forall (use_ild : bool) (s : list (R * R)),
       apply_itd self mono_signal angle_deg use_ild = Returned s ->
       List.length s = List.length mono_signal
       /\ bounded_by 1 s
       /\ exists left_ right_,
            itd_channels self mono_signal angle_deg = Returned (left_, right_)
            /\ no_louder s (ild_stereo angle_deg left_ right_)
            /\ (bounded_by 1 (ild_stereo angle_deg left_ right_) ->
                s = ild_stereo angle_deg left_ right_)
            /\ (~ bounded_by 1 (ild_stereo angle_deg left_ right_) ->
                exists peak,
                  1 < peak
                  /\ np_max_abs (ild_stereo angle_deg left_ right_) = Returned peak
                  /\ s = scale_stereo peak (ild_stereo angle_deg left_ right_)).
Proof.
  destruct mono_signal as [|a x].
  - split; [intros H; now contradiction H|].
    intros use_ild s H. unfold apply_itd in H.
    rewrite itd_channels_nil in H. discriminate H.
  - destruct (itd_channels_cons self a x angle_deg) as (l & r & Hch & Hl & Hr).
    pose proof (ild_stereo_length angle_deg l r ltac:(congruence)) as Hlen.
    rewrite Hl in Hlen.
    destruct (ild_stereo angle_deg l r) as [|p pre] eqn:Hpre;
      [discriminate Hlen|].
    destruct (peak_normalise_spec p pre)
      as (s0 & Hnorm & Hs0len & Hb & Hq & Hkeep & Hscale).
    split.
    + intros _. exists s0. unfold apply_itd. rewrite Hch, Hpre. exact Hnorm.
    + intros use_ild s H. unfold apply_itd in H. rewrite Hch in H.
      destruct use_ild; [|discriminate H].
      rewrite Hpre, Hnorm in H. injection H as <-.
      split; [cbn [List.length] in *; congruence|].
      split; [exact Hb|].
      exists l, r. rewrite Hpre. repeat split; assumption.
Qed.

Lemma C4_returned_stereo_is_within_unit_peak_witness :
  exists s,
    apply_itd default [2] 0 true = Returned s
    /\ List.length s = 1%nat /\ bounded_by 1 s.
Proof.
  destruct (C4_returned_stereo_is_within_unit_peak default [2] 0)
    as [Hret Hall].
  destruct Hret as [s Hs]; [discriminate|].
  exists s. split; [exact Hs|].
  destruct (Hall true s Hs) as (Hlen & Hb & _).
  split; [exact Hlen | exact Hb].
Defined.

(** C2, counterexample.  At [-90] degrees, inside [[-90, 90]], the default
    model returns a negative delay; it is also smaller than the delay at
    [0] degrees although [|-90| > |0|]. *)
Lemma C2_delay_is_negative_at_minus_90 :
  -90 <= -90 <= 90
  /\ woodworth_model default (-90) < 0
  /\ Rabs 0 <= Rabs (-90)
  /\ woodworth_model default (-90) < woodworth_model default 0.
Proof.
  assert (Hneg : woodworth_model default (-90) < 0)
    by (apply woodworth_model_neg; cbn; lra).
  split; [lra|]. split; [exact Hneg|]. split.
  - rewrite Rabs_R0. apply Rabs_pos.
  - now rewrite woodworth_model_0.
Qed.

(** C2, amended.  With a positive head radius and speed of sound, the
    returned delay is signed like the azimuth: it is [>= 0] for every angle
    [>= 0], negative for every negative angle, and the delay at [-a] is the
    negation of the delay at [a].  What is non-decreasing in [|a|] is the
    magnitude of the returned delay (the quantity [apply_itd] uses through
    [abs]); the returned delay itself is non-decreasing in the signed
    angle. *)
Theorem C2_delay_is_signed_and_its_magnitude_monotone (self : t) :
  0 < avg_head_r self -> 0 < speed_of_sound self ->
  (forall a, 0 <= a -> 0 <= woodworth_model self a)
  /\ (forall a, a < 0 -> woodworth_model self a < 0)
  /\ (forall a, woodworth_model self (- a) = - woodworth_model self a)
  /\ (forall a b, Rabs a <= Rabs b ->
        0 <= Rabs (woodworth_model self a) <= Rabs (woodworth_model self b))
  /\ (forall a b, a <= b -> woodworth_model self a <= woodworth_model self b).
Proof.
  intros Hr Hc. repeat split.
  - intros a. now apply woodworth_model_nonneg.
  - intros a. now apply woodworth_model_neg.
  - intros a. apply woodworth_model_odd.
  - apply Rabs_pos.
  - rewrite !woodworth_model_Rabs by assumption.
    now apply woodworth_model_mono.
  - intros a b. now apply woodworth_model_mono.
Qed.

Lemma C2_delay_is_signed_and_its_magnitude_monotone_witness :
  0 <= woodworth_model default 90
  /\ woodworth_model default (-30) < 0
  /\ Rabs (woodworth_model default (-30)) <= Rabs (woodworth_model default 60).
Proof.
  destruct (C2_delay_is_signed_and_its_magnitude_monotone default)
    as (Hpos & Hneg & _ & Hmag & _).
  - cbn. lra.
  - cbn. lra.
  - split; [apply Hpos; lra|]. split; [apply Hneg; lra|].
    apply Hmag. rewrite Rabs_left by lra. rewrite Rabs_pos_eq by lra. lra.
Defined.

(** Settle the comparisons of reals met while a closed interpolation is
    evaluated. *)
Ltac settle_comparisons :=
  repeat match goal with
  | |- context [Rlt_dec ?a ?b] =>
      destruct (Rlt_dec a b); [try (exfalso; lra)|try (exfalso; lra)]
  | |- context [Req_dec_T ?a ?b] =>
      destruct (Req_dec_T a b); [try (exfalso; lra)|try (exfalso; lra)]
  end.

Ltac evaluate_shift :=
  rewrite fractional_shift_cons; unfold shifted, np_arange, interp_one;
  cbn [List.length seq map last hd INR interp_search];
  f_equal; repeat (f_equal; [settle_comparisons; lra|]);
  f_equal; settle_comparisons; lra.

(** C9, counterexample.  A unit impulse in the middle of seven samples,
    shifted by half a sample and back: both shifts return seven samples, but
    at index 3, three samples away from either end, the round trip yields
    [1/2] where the input holds [1]. *)
Lemma C9_half_sample_round_trip_smooths :
  let x := [0; 0; 0; 1; 0; 0; 0] in
  fractional_shift x (1 / 2) = Returned [0; 0; 0; 1 / 2; 1 / 2; 0; 0]
  /\ fractional_shift [0; 0; 0; 1 / 2; 1 / 2; 0; 0] (- (1 / 2))
     = Returned [0; 0; 1 / 4; 1 / 2; 1 / 4; 0; 0]
  /\ nth 3 [0; 0; 1 / 4; 1 / 2; 1 / 4; 0; 0] 0 <> nth 3 x 0.
Proof.
  cbv zeta. split; [|split].
  - evaluate_shift.
  - evaluate_shift.
  - cbn. lra.
Qed.

Lemma sample_in_range (x : list R) (i : nat) :
  (i < List.length x)%nat -> sample x (Z.of_nat i) = nth i x 0.
Proof.
  intros Hi. unfold sample.
  replace (0 <=? Z.of_nat i)%Z with true by (symmetry; apply Z.leb_le; lia).
  replace (Z.of_nat i <? Z.of_nat (List.length x))%Z with true
    by (symmetry; apply Z.ltb_lt; lia).
  cbn [andb]. now rewrite Nat2Z.id.
Qed.

(** C9, amended.  On a non-empty signal both shifts return a signal of the
    length of the input, for every shift amount.  When the amount is a whole
    number [z] of samples, shifting by [+z] and then by [-z] gives back the
    input at every index [i] with [0 <= i + z < len(x)], hence at every
    index at least [|z|] away from both ends.  (For a fractional amount each
    shift averages neighbouring samples and the round trip is not the
    identity.) *)
Theorem C9_whole_sample_round_trip (x : list R) (s : R) :
  x <> [] ->
  exists y w,
    fractional_shift x s = Returned y
    /\ fractional_shift y (- s) = Returned w
    /\ List.length y = List.length x
    /\ List.length w = List.length x
    /\ forall z : Z, s = IZR z ->
         (forall i : nat,
            (0 <= Z.of_nat i + z < Z.of_nat (List.length x))%Z ->
            (i < List.length x)%nat ->
            nth i w 0 = nth i x 0)
         /\ (forall i : nat,
               (Z.abs z <= Z.of_nat i < Z.of_nat (List.length x) - Z.abs z)%Z ->
               nth i w 0 = nth i x 0).
Proof.
  intros Hx. destruct x as [|a x]; [now contradiction Hx|].
  pose proof (shifted_length (a :: x) s) as Hy.
  destruct (shifted (a :: x) s) as [|b y] eqn:Ey; [discriminate Hy|].
  exists (b :: y), (shifted (b :: y) (- s)).
  rewrite fractional_shift_cons, Ey, fractional_shift_cons.
  split; [reflexivity|]. split; [reflexivity|]. split; [exact Hy|].
  split; [rewrite shifted_length; exact Hy|].
  intros z ->.
  assert (Hcore : forall i : nat,
            (0 <= Z.of_nat i + z < Z.of_nat (List.length (a :: x)))%Z ->
            (i < List.length (a :: x))%nat ->
            nth i (shifted (b :: y) (- IZR z)) 0 = nth i (a :: x) 0).
  { intros i Hz Hi.
    rewrite <- opp_IZR, shifted_by_integer by (rewrite Hy; exact Hi).
    replace (Z.of_nat i - - z)%Z with (Z.of_nat (Z.to_nat (Z.of_nat i + z)))
      by lia.
    rewrite sample_in_range by (rewrite Hy; lia).
    rewrite <- Ey, shifted_by_integer by lia.
    replace (Z.of_nat (Z.to_nat (Z.of_nat i + z)) - z)%Z with (Z.of_nat i)
      by lia.
    now apply sample_in_range. }
  split; [exact Hcore|].
  intros i Hi. apply Hcore; lia.
Qed.

Lemma C9_whole_sample_round_trip_witness :
  exists y w,
    fractional_shift [1; 2; 3; 4; 5] 1 = Returned y
    /\ fractional_shift y (- 1) = Returned w
    /\ nth 2 w 0 = 3.
Proof.
  destruct (C9_whole_sample_round_trip [1; 2; 3; 4; 5] 1)
    as (y & w & Hy & Hw & _ & _ & Hz).
  - discriminate.
  - exists y, w. split; [exact Hy|]. split; [exact Hw|].
    destruct (Hz 1%Z eq_refl) as [_ Hmid].
    apply (Hmid 2%nat). cbn. lia.
Defined.

End ItdFacts.

(** * Further properties of the staircase controller *)

Module StaircaseMore.

Import jnd_experiment StaircaseFacts.
Local Open Scope Z_scope.

(** X1. A run of [adjust_angle] calls raises [reversals] by exactly the
    number of direction changes in the run, counted from the direction
    stored before it; a first call on an object without a stored direction,
    or a call that repeats the stored direction, counts nothing.  The stored
    direction afterwards is that of the last call. *)
Theorem adjust_each_counts_direction_changes (difficulties : list bool) :
  forall self : t,
    reversals (adjust_each self difficulties)
    = reversals self + direction_changes (last_direction self) difficulties
    /\ last_direction (adjust_each self difficulties)
       = match rev difficulties with
         | [] => last_direction self
         | d :: _ => Some (direction_of d)
         end.
Proof.
  induction difficulties as [|d ds IH]; intros self.
  - cbn. split; [lia|reflexivity].
  - unfold adjust_each in *. cbn [fold_left direction_changes].
    destruct (IH (adjust_angle self d)) as [Hr Hl].
    rewrite Hr, Hl, adjust_angle_reversals, adjust_angle_last_direction.
    split.
    + fold (direction_of d).
      destruct (last_direction self) as [old|]; [|lia].
      destruct (direction_eqb (direction_of d) old); lia.
    + cbn [rev]. destruct (rev ds) as [|d' ds']; reflexivity.
Qed.

Lemma run_loop_S (fuel : nat) (trial : Z) (self : t) (w : world) :
  run_loop (S fuel) trial self w
  = if ((trial <? max_trials self) && (reversals self <? 10))%bool
    then run_loop fuel (trial + 1) (fst (step self w)) (snd (step self w))
    else Some (self, w, trial).
Proof. reflexivity. Qed.

Lemma run_loop_stops (fuel : nat) :
  forall (trial : Z) (self : t) (w : world),
  max_trials self - trial <= Z.of_nat fuel ->
  exists n : nat,
    run_loop fuel trial self w
    = Some (fst (after_trials n self w), snd (after_trials n self w),
            trial + Z.of_nat n)
    /\ (forall k, (k < n)%nat ->
          trial + Z.of_nat k < max_trials self
          /\ reversals (fst (after_trials k self w)) < 10)
    /\ (max_trials self <= trial + Z.of_nat n
        \/ 10 <= reversals (fst (after_trials n self w))).
Proof.
  induction fuel as [|fuel IH]; intros trial self w Hfuel.
  - exists 0%nat. cbn [run_loop].
    replace (trial <? max_trials self) with false
      by (symmetry; apply Z.ltb_ge; lia).
    cbn. split; [repeat f_equal; lia|]. split; [intros k Hk; lia|left; lia].
  - rewrite run_loop_S.
    destruct (Z.ltb_spec trial (max_trials self)) as [Hlt|Hge].
    2:{ exists 0%nat. cbn. split; [repeat f_equal; lia|].
        split; [intros k Hk; lia|left; lia]. }
    destruct (Z.ltb_spec (reversals self) 10) as [Hrev|Hrev].
    2:{ exists 0%nat. cbn. split; [repeat f_equal; lia|].
        split; [intros k Hk; lia|right; lia]. }
    cbn [andb].
    destruct (IH (trial + 1) (fst (step self w)) (snd (step self w)))
      as (n & Hrun & Hbefore & Hexit).
    { rewrite step_max_trials. lia. }
    rewrite step_max_trials in Hbefore, Hexit.
    exists (S n). rewrite after_trials_S, Hrun.
    split; [do 2 f_equal; lia|]. split.
    + intros [|k] Hk; [cbn; split; lia|].
      rewrite after_trials_S.
      destruct (Hbefore k ltac:(lia)) as [H1 H2]. split; [lia|exact H2].
    + destruct Hexit as [H|H]; [left; lia|right; exact H].
Qed.

(** X2. From any object and world, [run] returns after some number [n] of
    calls of [trial_run], with [trial = n]: before each of them both loop
    tests held, and at the exit one of them fails, so [n] is the first trial
    count at which [trial >= max_trials] or [reversals >= 10].  In
    particular a session whose [reversals] reaches 10 after fewer than
    [max_trials] trials stops there. *)
Theorem run_stops_at_first_failed_test (self : t) (w : world) :
  exists n : nat,
    run self w
    = Some (fst (after_trials n self w), snd (after_trials n self w),
            Z.of_nat n)
    /\ (forall k, (k < n)%nat ->
          Z.of_nat k < max_trials self
          /\ reversals (fst (after_trials k self w)) < 10)
    /\ (max_trials self <= Z.of_nat n
        \/ 10 <= reversals (fst (after_trials n self w))).
Proof.
  destruct (run_loop_stops (Z.to_nat (max_trials self)) 0 self w ltac:(lia))
    as (n & Hrun & Hbefore & Hexit).
  exists n. unfold run. rewrite Hrun. split; [reflexivity|].
  split; [intros k Hk; destruct (Hbefore k Hk); split; [lia|assumption]|].
  destruct Hexit; [left; lia|right; assumption].
Qed.

(** ** What one update does to each attribute *)

Lemma update_staircase_streak (self : t) (c : bool) (ta : float) :
  correct_streak (update_staircase self c ta)
  = correct_streak self + (if c then 1 else 0).
Proof.
  unfold update_staircase. destruct c; [|cbn; lia].
  destruct (2 <=? correct_streak (bump_streak self)); reflexivity.
Qed.

Lemma update_staircase_angle (self : t) (c : bool) (ta : float) :
  angle (update_staircase self c ta)
  = if (c && (1 <=? correct_streak self))%bool
    then py_min (max_angle self) (PrimFloat.mul (angle self) 1.25%float)
    else angle self.
Proof.
  unfold update_staircase. destruct c; [|reflexivity].
  cbn [andb bump_streak correct_streak].
  destruct (Z.leb_spec 2 (correct_streak self + 1));
    destruct (Z.leb_spec 1 (correct_streak self)); try lia; reflexivity.
Qed.

Lemma update_staircase_bounds (self : t) (c : bool) (ta : float) :
  min_angle (update_staircase self c ta) = min_angle self
  /\ max_angle (update_staircase self c ta) = max_angle self.
Proof.
  unfold update_staircase. destruct c; [|split; reflexivity].
  destruct (2 <=? correct_streak (bump_streak self)); split; reflexivity.
Qed.

Lemma after_trials_bounds (k : nat) : forall (self : t) (w : world),
  min_angle (fst (after_trials k self w)) = min_angle self
  /\ max_angle (fst (after_trials k self w)) = max_angle self.
Proof.
  induction k as [|k IH]; intros self w; [split; reflexivity|].
  rewrite after_trials_S. destruct (IH (fst (step self w)) (snd (step self w)))
    as [-> ->].
  rewrite step_unfold. cbn [fst]. apply update_staircase_bounds.
Qed.

Lemma correct_count_snoc (log : list bool) (c : bool) :
  correct_count (log ++ [c]) = (correct_count log + (if c then 1 else 0))%nat.
Proof.
  unfold correct_count. rewrite filter_app, length_app.
  destruct c; reflexivity.
Qed.

(** X3. In a session started from [__init__], after any number of trials
    [correct_streak] equals the number of [True] entries of
    [history_correct] (it is a running total of correct answers, not a
    streak), and [self.angle] is the start angle stepped up once for every
    correct answer but the first: it depends on how many answers were
    correct, not on their order. *)
Theorem angle_is_fixed_by_the_correct_count
    (mt : Z) (sa mn mx : float) (w : world) (s0 : t) (k : nat) :
  init mt sa mn mx = Returned s0 ->
  correct_streak (fst (after_trials k s0 w))
  = Z.of_nat (correct_count (history_correct (fst (after_trials k s0 w))))
  /\ angle (fst (after_trials k s0 w))
     = up_steps
         (Nat.pred (correct_count (history_correct (fst (after_trials k s0 w)))))
         mx sa.
Proof.
  intros Hinit. injection Hinit as <-.
  set (s0 := {| angle := sa |}).
  induction k as [|k [IHs IHa]]; [split; reflexivity|].
  rewrite after_trials_snoc, step_unfold. cbn [fst].
  set (s := fst (after_trials k s0 w)) in *.
  set (c := score_of s (snd (after_trials k s0 w))).
  set (ta := target_of s (snd (after_trials k s0 w))).
  destruct (update_staircase_histories s c ta) as [_ ->].
  rewrite correct_count_snoc, update_staircase_streak, update_staircase_angle.
  pose proof (proj2 (after_trials_bounds k s0 w)) as Hmx.
  fold s in Hmx. rewrite Hmx. change (max_angle s0) with mx.
  split; [rewrite IHs; destruct c; lia|].
  rewrite IHa, IHs. destruct c; cbn [andb].
  - destruct (correct_count (history_correct s)) as [|n].
    + reflexivity.
    + replace (1 <=? Z.of_nat (S n)) with true by (symmetry; apply Z.leb_le; lia).
      replace (S n + 1)%nat with (S (S n)) by lia. reflexivity.
  - rewrite Nat.add_0_r. reflexivity.
Qed.

Lemma angle_is_fixed_by_the_correct_count_witness :
  correct_streak
    (fst (after_trials 5 (session 10)
            (scripted [] ["2"; "2"; "1"; "2"; "2"]%string))) = 4
  /\ angle
       (fst (after_trials 5 (session 10)
               (scripted [] ["2"; "2"; "1"; "2"; "2"]%string)))
     = up_steps 3 90%float 10%float.
Proof.
  exact (angle_is_fixed_by_the_correct_count 10 10%float 0%float 90%float
           (scripted [] ["2"; "2"; "1"; "2"; "2"]%string) (session 10) 5
           eq_refl).
Defined.

Lemma replay_history_angle (trials : list (bool * float)) : forall self : t,
  history_angle (replay self trials) = history_angle self ++ map snd trials.
Proof.
  induction trials as [|[c ta] trials IH]; intros self; cbn.
  - now rewrite app_nil_r.
  - unfold replay in IH. rewrite IH.
    destruct (update_staircase_histories self c ta) as [-> _].
    now rewrite <- app_assoc.
Qed.

Lemma outcomes_nth (k : nat) : forall (i : nat) (self : t) (w : world),
  (i < k)%nat ->
  nth i (outcomes k self w) (false, 0%float)
  = (score_of (fst (after_trials i self w)) (snd (after_trials i self w)),
     target_of (fst (after_trials i self w)) (snd (after_trials i self w))).
Proof.
  induction k as [|k IH]; intros i self w Hi; [lia|].
  destruct i as [|i]; [reflexivity|].
  cbn [outcomes nth]. rewrite IH by lia. now rewrite after_trials_S.
Qed.

(** X4. The two logs are append-only and stay aligned: after [k] trials
    each is the log it was, unchanged, followed by exactly [k] new entries,
    and the [i]-th new entries are the signed target and the score of the
    [i]-th trial. *)
Theorem logs_are_append_only_and_aligned (k : nat) (self : t) (w : world) :
  exists new : list (bool * float),
    List.length new = k
    /\ history_angle (fst (after_trials k self w))
       = history_angle self ++ map snd new
    /\ history_correct (fst (after_trials k self w))
       = history_correct self ++ map fst new
    /\ forall i, (i < k)%nat ->
         nth i new (false, 0%float)
         = (score_of (fst (after_trials i self w)) (snd (after_trials i self w)),
            target_of (fst (after_trials i self w)) (snd (after_trials i self w))).
Proof.
  exists (outcomes k self w). split; [apply outcomes_length|].
  rewrite after_trials_replay.
  split; [apply replay_history_angle|]. split; [apply replay_history_correct|].
  intros i Hi. now apply outcomes_nth.
Qed.

(** X5. Every trial draws exactly twice from [random.choice], prompts
    exactly once and plays exactly two stimuli: after [k] trials the session
    has made [2k] more draws, [k] more prompts and [2k] more playbacks. *)
Theorem trials_consume_two_draws_and_one_reply (k : nat) :
  forall (self : t) (w : world),
    drawn (snd (after_trials k self w)) = (drawn w + 2 * k)%nat
    /\ prompted (snd (after_trials k self w)) = (prompted w + k)%nat
    /\ List.length (played (snd (after_trials k self w)))
       = (List.length (played w) + 2 * k)%nat.
Proof.
  induction k as [|k IH]; intros self w.
  - cbn. repeat split; lia.
  - rewrite after_trials_S.
    destruct (IH (fst (step self w)) (snd (step self w))) as (-> & -> & ->).
    cbn. repeat split; lia.
Qed.

(** X6. In every trial exactly one of the two labels is the correct
    response: a stripped reply is scored [True] if and only if it is that
    label, and the other presentation order makes the other label the
    correct one. *)
Theorem exactly_one_label_is_correct (order : Z) (target_angle : float) :
  exists good bad : string,
    ((good = "1" /\ bad = "2") \/ (good = "2" /\ bad = "1"))%string
    /\ correct_label order target_angle = good
    /\ correct_label (if order =? 0 then 1 else 0) target_angle = bad
    /\ forall pp_response,
         score pp_response (correct_label order target_angle) = true
         <-> pp_response = good.
Proof.
  assert (Hscore : forall r good : string,
            (good = "1" \/ good = "2")%string ->
            (score r good = true <-> r = good)).
  { intros r good Hgood. unfold score.
    destruct (String.eqb_spec r "1") as [E1|H1];
      destruct (String.eqb_spec r "2") as [E2|H2]; cbn [orb];
      try (split; [discriminate|]; intros ->; destruct Hgood; congruence);
      destruct (String.eqb_spec r good); split; congruence. }
  unfold correct_label.
  destruct (order =? 0); cbn [Z.eqb];
    destruct (PrimFloat.ltb target_angle 0%float);
    eexists _, _; (split; [|split; [reflexivity|split; [reflexivity|]]]);
    try (intros r; apply Hscore); auto.
Qed.

(** X7. From any object, a session of any length adds at most one reversal,
    and none unless the stored direction was ['down'] when it began: every
    step the trial loop takes is upward, so after the first step the stored
    direction is ['up'] for good. *)
Theorem session_adds_at_most_one_reversal (k : nat) (self : t) (w : world) :
  reversals self <= reversals (fst (after_trials k self w)) <= reversals self + 1
  /\ (last_direction self <> Some down ->
      reversals (fst (after_trials k self w)) = reversals self)
  /\ (last_direction (fst (after_trials k self w)) = last_direction self
      \/ last_direction (fst (after_trials k self w)) = Some up).
Proof.
  assert (Inv :
    (last_direction (fst (after_trials k self w)) = last_direction self
     /\ reversals (fst (after_trials k self w)) = reversals self)
    \/ (last_direction (fst (after_trials k self w)) = Some up
        /\ (reversals (fst (after_trials k self w)) = reversals self
            \/ (reversals (fst (after_trials k self w)) = reversals self + 1
                /\ last_direction self = Some down)))).
  { induction k as [|k IH]; [left; split; reflexivity|].
    rewrite after_trials_snoc, step_unfold. cbn [fst].
    set (s := fst (after_trials k self w)) in *.
    destruct (update_staircase_cases s
                (score_of s (snd (after_trials k self w)))
                (target_of s (snd (after_trials k self w))))
      as [-> | [-> | ->]]; try exact IH.
    right. cbn [log_trial last_direction reversals].
    rewrite adjust_angle_last_direction, adjust_angle_reversals.
    cbn [bump_streak last_direction reversals].
    split; [reflexivity|].
    destruct IH as [[Hl Hr] | [Hl Hr]]; rewrite Hl.
    - rewrite Hr. destruct (last_direction self) as [[|]|]; cbn; auto.
    - cbn. exact Hr. }
  destruct Inv as [[Hl Hr] | [Hl [Hr | [Hr Hd]]]]; rewrite ?Hl, ?Hr;
    repeat split; auto; try lia; try congruence.
Qed.

End StaircaseMore.

(** * Further properties of the binaural model and the shifter *)

Module ItdMore.

Import generate_ITD ItdFacts.
Local Open Scope R_scope.

(** X8. The delay saturates outside the frontal hemifield: from 90 degrees
    on it is [(r/c) * (pi/2 + 1)], from -90 degrees down it is the negation
    of that, and no angle gives a delay of larger magnitude. *)
Theorem woodworth_model_saturates (self : t) (angle_deg : R) :
  0 < avg_head_r self -> 0 < speed_of_sound self ->
  (90 <= angle_deg ->
   woodworth_model self angle_deg
   = avg_head_r self / speed_of_sound self * (PI / 2 + 1))
  /\ (angle_deg <= -90 ->
      woodworth_model self angle_deg
      = - (avg_head_r self / speed_of_sound self * (PI / 2 + 1)))
  /\ Rabs (woodworth_model self angle_deg)
     <= avg_head_r self / speed_of_sound self * (PI / 2 + 1).
Proof.
  intros Hr Hc. pose proof PI_RGT_0 as Hpi.
  assert (Hhi : forall a, 90 <= a ->
            woodworth_model self a
            = avg_head_r self / speed_of_sound self * (PI / 2 + 1)).
  { intros a Ha. unfold woodworth_model.
    replace (np_clip (np_radians a) (- PI / 2) (PI / 2)) with (PI / 2).
    - now rewrite sin_PI2.
    - unfold np_clip, np_radians, Rmin, Rmax.
      repeat destruct Rle_dec; nra. }
  split; [apply Hhi|]. split.
  - intros Ha. replace angle_deg with (- - angle_deg) by lra.
    rewrite woodworth_model_odd, Hhi by lra. reflexivity.
  - rewrite woodworth_model_Rabs by assumption.
    rewrite <- (Hhi (Rmax (Rabs angle_deg) 90)) by apply Rmax_r.
    apply woodworth_model_mono; try assumption. apply Rmax_l.
Qed.

Lemma woodworth_model_saturates_witness :
  woodworth_model default 120 = woodworth_model default 90
  /\ Rabs (woodworth_model default (-45)) <= 0.0875 / 343 * (PI / 2 + 1).
Proof.
  destruct (woodworth_model_saturates default 120) as (H120 & _ & _);
    [cbn; lra | cbn; lra |].
  destruct (woodworth_model_saturates default 90) as (H90 & _ & _);
    [cbn; lra | cbn; lra |].
  destruct (woodworth_model_saturates default (-45)) as (_ & _ & Hb);
    [cbn; lra | cbn; lra |].
  split; [rewrite H120, H90 by lra; reflexivity | exact Hb].
Defined.

(** X9. For a non-negative [max_ild] the level difference is the line
    [angle / 90 * max_ild] between -90 and 90 degrees, stays at [max_ild]
    beyond 90 and at [-max_ild] below -90, never leaves
    [[-max_ild, max_ild]], and changes sign with the angle. *)
Theorem simple_ild_is_a_clamped_line (angle_deg max_ild : R) :
  0 <= max_ild ->
  - max_ild <= simple_ild angle_deg max_ild <= max_ild
  /\ (-90 <= angle_deg <= 90 ->
      simple_ild angle_deg max_ild = angle_deg / 90 * max_ild)
  /\ (90 <= angle_deg -> simple_ild angle_deg max_ild = max_ild)
  /\ (angle_deg <= -90 -> simple_ild angle_deg max_ild = - max_ild)
  /\ simple_ild (- angle_deg) max_ild = - simple_ild angle_deg max_ild.
Proof.
  intros Hm. unfold simple_ild, np_clip.
  replace (- angle_deg / 90) with (- (angle_deg / 90)) by lra.
  set (x := angle_deg / 90).
  assert (Hx : angle_deg = 90 * x) by (unfold x; lra).
  repeat split; try (intros H; rewrite Hx in H);
    unfold Rmin, Rmax; repeat destruct Rle_dec; nra.
Qed.

Lemma simple_ild_is_a_clamped_line_witness :
  simple_ild 45 6 = 3 /\ simple_ild 120 6 = 6 /\ simple_ild (-120) 6 = -6.
Proof.
  destruct (simple_ild_is_a_clamped_line 45 6) as (_ & H45 & _); [lra|].
  destruct (simple_ild_is_a_clamped_line 120 6) as (_ & _ & H120 & _); [lra|].
  destruct (simple_ild_is_a_clamped_line (-120) 6) as (_ & _ & _ & Hn & _);
    [lra|].
  split; [rewrite H45; lra|]. split; [apply H120; lra|].
  rewrite Hn; lra.
Defined.

(** X10. The level cue multiplies the left channel by [gL] and the right
    channel by [gR], two positive gains whose product is 1: the ear on the
    side of the source is raised and the other lowered by the same factor,
    which is at most [10 ** 0.15] (3 dB per ear). *)
Theorem level_gains_are_reciprocal (angle_deg : R) (left_ right_ : list R) :
  exists gL gR : R,
    ild_stereo angle_deg left_ right_
    = combine (map (fun v => v * gL) left_) (map (fun v => v * gR) right_)
    /\ 0 < gL /\ 0 < gR /\ gL * gR = 1
    /\ (0 <= angle_deg -> gL <= 1 <= gR)
    /\ (angle_deg <= 0 -> gR <= 1 <= gL)
    /\ gL <= Rpower 10 (3 / 20) /\ gR <= Rpower 10 (3 / 20).
Proof.
  set (ild := simple_ild angle_deg default_max_ild).
  exists (Rpower 10 ((- ild / 20) / 2)), (Rpower 10 ((ild / 20) / 2)).
  assert (Hild : - 6 <= ild <= 6
                 /\ (0 <= angle_deg -> 0 <= ild) /\ (angle_deg <= 0 -> ild <= 0)).
  { unfold ild, simple_ild, np_clip, default_max_ild, Rmin, Rmax.
    repeat split; try intros H; repeat destruct Rle_dec; lra. }
  destruct Hild as (Hrange & Hpos & Hneg).
  assert (H1 : Rpower 10 0 = 1) by (apply Rpower_O; lra).
  assert (Hmono : forall a b, a <= b -> Rpower 10 a <= Rpower 10 b)
    by (intros a b Hab; apply Rle_Rpower; lra).
  split; [reflexivity|].
  split; [unfold Rpower; apply exp_pos|].
  split; [unfold Rpower; apply exp_pos|].
  split; [rewrite <- Rpower_plus, <- H1; f_equal; lra|].
  split; [intros Ha; specialize (Hpos Ha); rewrite <- H1;
          split; apply Hmono; lra|].
  split; [intros Ha; specialize (Hneg Ha); rewrite <- H1;
          split; apply Hmono; lra|].
  split; apply Hmono; lra.
Qed.

(** ** The shifter between grid points *)

(** Between two neighbouring grid points the search returns the straight
    line through the two samples. *)
Lemma interp_search_between (fp : list R) : forall (a j : nat) (q : R),
  (S j < List.length fp)%nat ->
  INR (a + j) <= q < INR (a + j) + 1 ->
  interp_search q (map INR (seq a (List.length fp))) fp
  = nth j fp 0 + (nth (S j) fp 0 - nth j fp 0) * (q - INR (a + j)).
Proof.
  induction fp as [|f0 fs IH]; intros a j q Hj Hq; [cbn in Hj; lia|].
  destruct fs as [|f1 fs']; [cbn in Hj; lia|].
  change (List.length (f0 :: f1 :: fs')) with (S (List.length (f1 :: fs'))).
  rewrite <- cons_seq.
  change (List.length (f1 :: fs')) with (S (List.length fs')) at 1.
  rewrite <- cons_seq. cbn [map]. rewrite interp_search_step.
  pose proof (S_INR a) as HS.
  destruct j as [|j].
  - rewrite Nat.add_0_r in Hq.
    destruct (Rlt_dec q (INR (S a))) as [_|Hge]; [|lra].
    destruct (Req_dec_T (INR a) q) as [<-|Hne]; cbn [nth].
    + rewrite Nat.add_0_r. lra.
    + rewrite Nat.add_0_r, HS.
      replace (INR a + 1 - INR a) with 1 by lra. field.
  - replace (a + S j)%nat with (S a + j)%nat in * by lia.
    assert (Hle : INR (S a) <= INR (S a + j)) by (apply le_INR; lia).
    destruct (Rlt_dec q (INR (S a))) as [Hlt|_]; [lra|].
    change (INR (S a) :: map INR (seq (S (S a)) (List.length fs')))
      with (map INR (seq (S a) (List.length (f1 :: fs')))).
    rewrite (IH (S a) j q) by (cbn in Hj |- *; lia || exact Hq).
    reflexivity.
Qed.

(** The query [q] that the output sample [i] reads. *)
Lemma shifted_nth (x : list R) (s : R) (i : nat) :
  (i < List.length x)%nat ->
  nth i (shifted x s) 0
  = interp_one (INR i - s) (np_arange (List.length x)) x 0 0.
Proof.
  intros Hi. unfold shifted.
  set (f := fun q => interp_one q (np_arange (List.length x)) x 0 0).
  set (g := fun ti => ti - s).
  rewrite (nth_indep _ 0 (f (g 0)))
    by (rewrite !length_map, np_arange_length; exact Hi).
  rewrite map_nth, map_nth, np_arange_nth by exact Hi. reflexivity.
Qed.

Lemma fractional_shift_returns (x : list R) (s : R) :
  x <> [] -> fractional_shift x s = Returned (shifted x s).
Proof.
  intros Hx. destruct x as [|a x]; [now contradiction Hx|].
  apply fractional_shift_cons.
Qed.

(** X11. A shift by zero samples returns the input unchanged. *)
Theorem fractional_shift_by_zero_is_identity (x : list R) :
  x <> [] -> fractional_shift x 0 = Returned x.
Proof.
  intros Hx. rewrite fractional_shift_returns by exact Hx. f_equal.
  apply (nth_ext _ _ 0 0); [apply shifted_length|].
  intros i Hi. rewrite shifted_length in Hi.
  change 0 with (IZR 0) at 1. rewrite shifted_by_integer by exact Hi.
  rewrite Z.sub_0_r. now apply sample_in_range.
Qed.

Lemma fractional_shift_by_zero_is_identity_witness :
  fractional_shift [1; -2; 3] 0 = Returned [1; -2; 3].
Proof.
  apply fractional_shift_by_zero_is_identity. discriminate.
Defined.

(** X12. A shift by a whole number [z] of samples is a pure delay: output
    sample [i] is input sample [i - z], and zero where [i - z] falls before
    the first or after the last input sample. *)
Theorem fractional_shift_by_whole_samples_delays (x : list R) (z : Z) :
  x <> [] ->
  exists y,
    fractional_shift x (IZR z) = Returned y
    /\ List.length y = List.length x
    /\ forall i : nat, (i < List.length x)%nat ->
         nth i y 0
         = if ((0 <=? Z.of_nat i - z)%Z
               && (Z.of_nat i - z <? Z.of_nat (List.length x))%Z)%bool
           then nth (Z.to_nat (Z.of_nat i - z)) x 0
           else 0.
Proof.
  intros Hx. exists (shifted x (IZR z)).
  split; [now apply fractional_shift_returns|].
  split; [apply shifted_length|].
  intros i Hi. now rewrite shifted_by_integer.
Qed.

Lemma fractional_shift_by_whole_samples_delays_witness :
  exists y,
    fractional_shift [1; 2; 3; 4] 1 = Returned y
    /\ nth 0 y 0 = 0 /\ nth 3 y 0 = 3.
Proof.
  destruct (fractional_shift_by_whole_samples_delays [1; 2; 3; 4] 1)
    as (y & Hy & _ & Hn); [discriminate|].
  exists y. split; [exact Hy|].
  split; [apply (Hn 0%nat) | apply (Hn 3%nat)]; cbn; lia.
Defined.

(** X13. Between grid points the shifter interpolates linearly: if output
    sample [i] reads position [i - s = j + f] with [0 <= f < 1] and both
    [j] and [j + 1] inside the input, its value is
    [(1 - f) * x[j] + f * x[j+1]]. *)
Theorem fractional_shift_interpolates_linearly
    (x : list R) (s f : R) (i j : nat) :
  (i < List.length x)%nat ->
  (S j < List.length x)%nat ->
  0 <= f < 1 ->
  INR i - s = INR j + f ->
  exists y,
    fractional_shift x s = Returned y
    /\ nth i y 0 = (1 - f) * nth j x 0 + f * nth (S j) x 0.
Proof.
  intros Hi Hj Hf Hq.
  assert (Hx : x <> []) by (destruct x; [cbn in Hi; lia|discriminate]).
  exists (shifted x s). split; [now apply fractional_shift_returns|].
  rewrite shifted_nth by exact Hi. rewrite Hq.
  destruct x as [|a x]; [now contradiction Hx|].
  unfold interp_one.
  rewrite (np_arange_last (List.length x) : last (np_arange (List.length (a :: x))) 0 = _).
  rewrite (np_arange_hd (List.length x) : hd 0 (np_arange (List.length (a :: x))) = _).
  assert (Hjn : INR (S j) <= INR (List.length x))
    by (apply le_INR; cbn in Hj; lia).
  rewrite S_INR in Hjn. pose proof (pos_INR j) as H0.
  destruct (Rlt_dec (INR (List.length x)) (INR j + f)) as [Hc|_]; [lra|].
  destruct (Rlt_dec (INR j + f) 0) as [Hc|_]; [lra|].
  unfold np_arange.
  rewrite (interp_search_between (a :: x) 0 j) by (cbn [Nat.add]; lra || exact Hj).
  cbn [Nat.add]. lra.
Qed.

Lemma fractional_shift_interpolates_linearly_witness :
  exists y,
    fractional_shift [0; 4; 8] (1 / 4) = Returned y
    /\ nth 1 y 0 = 3.
Proof.
  destruct (fractional_shift_interpolates_linearly [0; 4; 8] (1 / 4) (3 / 4)
              1 0) as (y & Hy & Hv).
  - cbn. lia.
  - cbn. lia.
  - lra.
  - cbn. lra.
  - exists y. split; [exact Hy|]. rewrite Hv. cbn. lra.
Defined.

(** X14. Output samples whose read position falls before the first or
    after the last input sample are zero; a shift of more than
    [len(x) - 1] samples, in either direction, returns silence. *)
Theorem fractional_shift_pads_with_zeros (x : list R) (s : R) :
  x <> [] ->
  exists y,
    fractional_shift x s = Returned y
    /\ (forall i : nat, (i < List.length x)%nat ->
          INR i - s < 0 \/ INR (List.length x) - 1 < INR i - s ->
          nth i y 0 = 0)
    /\ (INR (List.length x) - 1 < Rabs s ->
        y = repeat 0 (List.length x)).
Proof.
  intros Hx. exists (shifted x s).
  split; [now apply fractional_shift_returns|].
  assert (Hout : forall i : nat, (i < List.length x)%nat ->
            INR i - s < 0 \/ INR (List.length x) - 1 < INR i - s ->
            nth i (shifted x s) 0 = 0).
  { intros i Hi Hq. rewrite shifted_nth by exact Hi.
    destruct x as [|a x]; [now contradiction Hx|].
    unfold interp_one.
    change (List.length (a :: x)) with (S (List.length x)) in *.
    rewrite np_arange_last, np_arange_hd. rewrite S_INR in Hq.
    destruct (Rlt_dec (INR (List.length x)) (INR i - s)); [reflexivity|].
    destruct (Rlt_dec (INR i - s) 0); [reflexivity|]. lra. }
  split; [exact Hout|].
  intros Hs. apply (nth_ext _ _ 0 0);
    [now rewrite shifted_length, repeat_length|].
  intros i Hi. rewrite shifted_length in Hi.
  rewrite nth_repeat. apply Hout; [exact Hi|].
  pose proof (pos_INR i) as H0.
  assert (Hin : INR i <= INR (List.length x) - 1).
  { assert (Hi' : (S i <= List.length x)%nat) by lia.
    apply le_INR in Hi'. rewrite S_INR in Hi'. lra. }
  unfold Rabs in Hs. destruct (Rcase_abs s); [right|left]; lra.
Qed.

Lemma fractional_shift_pads_with_zeros_witness :
  fractional_shift [1; 2; 3] 5 = Returned [0; 0; 0].
Proof.
  destruct (fractional_shift_pads_with_zeros [1; 2; 3] 5)
    as (y & Hy & _ & Hz); [discriminate|].
  rewrite Hy. f_equal. apply Hz.
  cbn. rewrite Rabs_pos_eq by lra. lra.
Defined.

(** ** No overshoot, and linearity *)

Lemma Rabs_within (v b : R) : Rabs v <= b -> - b <= v <= b.
Proof. unfold Rabs. destruct (Rcase_abs v); lra. Qed.

Lemma convex_combination_bounded (b f0 f1 x0 x1 q : R) :
  Rabs f0 <= b -> Rabs f1 <= b -> x0 <= q < x1 ->
  Rabs ((f1 - f0) / (x1 - x0) * (q - x0) + f0) <= b.
Proof.
  intros H0 H1 Hq.
  apply Rabs_within in H0, H1. apply Rabs_le.
  set (u := (q - x0) / (x1 - x0)).
  assert (Hu : 0 <= u < 1).
  { unfold u. split.
    - apply Rmult_le_pos; [lra|]. left. apply Rinv_0_lt_compat. lra.
    - apply (Rmult_lt_reg_r (x1 - x0)); [lra|].
      unfold Rdiv. rewrite Rmult_assoc, Rinv_l by lra. lra. }
  replace ((f1 - f0) / (x1 - x0) * (q - x0) + f0) with (f0 + u * (f1 - f0))
    by (unfold u; field; lra).
  split; nra.
Qed.

Lemma interp_search_bounded (b q : R) (xp : list R) : forall fp : list R,
  0 <= b ->
  Forall (fun v => Rabs v <= b) fp ->
  hd q xp <= q ->
  Rabs (interp_search q xp fp) <= b.
Proof.
  induction xp as [|x0 xs IH]; intros fp Hb Hfp Hq.
  - cbn. now rewrite Rabs_R0.
  - destruct fp as [|f0 fs]; [cbn; now rewrite Rabs_R0|].
    inversion Hfp as [|? ? Hf0 Hfs]; subst.
    destruct xs as [|x1 xs]; [exact Hf0|].
    destruct fs as [|f1 fs]; [exact Hf0|].
    rewrite interp_search_step. cbn [hd] in Hq.
    destruct (Rlt_dec q x1) as [Hlt|Hge].
    + destruct (Req_dec_T x0 q); [exact Hf0|].
      inversion Hfs; subst. apply convex_combination_bounded; try assumption.
      lra.
    + apply IH; [exact Hb|exact Hfs|cbn; lra].
Qed.

(** X15. The shifter never overshoots: if every input sample lies within
    [b] in absolute value, so does every output sample, for every shift. *)
Theorem fractional_shift_never_overshoots (x : list R) (s b : R) :
  x <> [] ->
  Forall (fun v => Rabs v <= b) x ->
  exists y,
    fractional_shift x s = Returned y
    /\ Forall (fun v => Rabs v <= b) y.
Proof.
  intros Hx Hb. exists (shifted x s).
  split; [now apply fractional_shift_returns|].
  assert (H0 : 0 <= b).
  { destruct x as [|a x]; [now contradiction Hx|].
    inversion Hb; subst. pose proof (Rabs_pos a). lra. }
  unfold shifted. apply Forall_map, Forall_map, Forall_forall.
  intros ti _. unfold interp_one.
  destruct (Rlt_dec _ _); [now rewrite Rabs_R0|].
  destruct (Rlt_dec _ _) as [|Hhd]; [now rewrite Rabs_R0|].
  apply interp_search_bounded; [exact H0|exact Hb|].
  destruct (np_arange (List.length x)); cbn in *; lra.
Qed.

Lemma fractional_shift_never_overshoots_witness :
  exists y,
    fractional_shift [1; -1; 1 / 2] (1 / 3) = Returned y
    /\ Forall (fun v => Rabs v <= 1) y.
Proof.
  apply fractional_shift_never_overshoots; [discriminate|].
  repeat constructor; unfold Rabs; destruct Rcase_abs; lra.
Defined.

Lemma lincomb_cons (k k' a a' : R) (x x' : list R) :
  lincomb k (a :: x) k' (a' :: x') = (k * a + k' * a') :: lincomb k x k' x'.
Proof. reflexivity. Qed.

Lemma lincomb_length (k k' : R) (x x' : list R) :
  List.length x = List.length x' ->
  List.length (lincomb k x k' x') = List.length x.
Proof.
  intros H. unfold lincomb. rewrite length_map, length_combine, H.
  apply Nat.min_id.
Qed.

Lemma lincomb_nth (k k' : R) (x : list R) : forall (x' : list R) (i : nat),
  List.length x = List.length x' ->
  nth i (lincomb k x k' x') 0 = k * nth i x 0 + k' * nth i x' 0.
Proof.
  induction x as [|a x IH]; intros [|a' x'] i Hlen; try discriminate Hlen.
  - destruct i; cbn; lra.
  - rewrite lincomb_cons. destruct i; [reflexivity|].
    cbn [nth]. apply IH. now injection Hlen.
Qed.

Lemma interp_search_lincomb (k k' q : R) (xp : list R) :
  forall fp fp' : list R,
  List.length fp = List.length fp' ->
  interp_search q xp (lincomb k fp k' fp')
  = k * interp_search q xp fp + k' * interp_search q xp fp'.
Proof.
  induction xp as [|x0 xs IH]; intros fp fp' Hlen.
  - cbn. lra.
  - destruct fp as [|f0 fs], fp' as [|f0' fs']; try discriminate Hlen.
    + cbn. lra.
    + rewrite lincomb_cons.
      destruct xs as [|x1 xs]; [reflexivity|].
      destruct fs as [|f1 fs], fs' as [|f1' fs']; try discriminate Hlen.
      * reflexivity.
      * rewrite lincomb_cons, !interp_search_step.
        destruct (Rlt_dec q x1).
        -- destruct (Req_dec_T x0 q); [reflexivity|].
           unfold Rdiv. ring.
        -- rewrite <- lincomb_cons. apply IH. cbn in Hlen |- *. lia.
Qed.

(** X16. The shifter is linear: shifting the combination
    [k * x + k' * x'] of two signals of equal length gives the same
    combination of the two shifted signals. *)
Theorem fractional_shift_is_linear (k k' s : R) (x x' : list R) :
  x <> [] ->
  List.length x = List.length x' ->
  exists y y',
    fractional_shift x s = Returned y
    /\ fractional_shift x' s = Returned y'
    /\ fractional_shift (lincomb k x k' x') s = Returned (lincomb k y k' y').
Proof.
  intros Hx Hlen.
  assert (Hx' : x' <> []) by (destruct x, x'; try discriminate; congruence).
  pose proof (lincomb_length k k' x x' Hlen) as Hl.
  assert (Hxl : lincomb k x k' x' <> [])
    by (destruct (lincomb k x k' x'), x; try discriminate; congruence).
  exists (shifted x s), (shifted x' s).
  rewrite !fractional_shift_returns by assumption.
  split; [reflexivity|]. split; [reflexivity|]. f_equal.
  apply (nth_ext _ _ 0 0).
  - rewrite lincomb_length by (now rewrite !shifted_length).
    now rewrite !shifted_length.
  - intros i Hi. rewrite shifted_length, Hl in Hi.
    rewrite lincomb_nth by (now rewrite !shifted_length).
    rewrite !shifted_nth by congruence.
    rewrite Hl, <- Hlen. unfold interp_one.
    destruct (Rlt_dec _ _); [lra|].
    destruct (Rlt_dec _ _); [lra|].
    now apply interp_search_lincomb.
Qed.

Lemma fractional_shift_is_linear_witness :
  exists y y',
    fractional_shift [1; 2; 3] (1 / 2) = Returned y
    /\ fractional_shift [0; 1; 0] (1 / 2) = Returned y'
    /\ fractional_shift (lincomb 2 [1; 2; 3] (-1) [0; 1; 0]) (1 / 2)
       = Returned (lincomb 2 y (-1) y').
Proof.
  apply fractional_shift_is_linear; [discriminate|reflexivity].
Defined.

(** ** Left/right symmetry of the synthesis *)

Lemma simple_ild_odd (angle_deg : R) :
  simple_ild (- angle_deg) default_max_ild
  = - simple_ild angle_deg default_max_ild.
Proof.
  unfold simple_ild, np_clip, default_max_ild, Rmin, Rmax.
  repeat destruct Rle_dec; lra.
Qed.

Lemma swap_combine (a b : list R) :
  swap_channels (combine a b) = combine b a.
Proof.
  unfold swap_channels. revert b.
  induction a as [|u a IH]; intros [|v b]; cbn; try reflexivity.
  now rewrite IH.
Qed.

Lemma ild_stereo_mirror (angle_deg : R) (left_ right_ : list R) :
  ild_stereo (- angle_deg) right_ left_
  = swap_channels (ild_stereo angle_deg left_ right_).
Proof.
  unfold ild_stereo. rewrite swap_combine, simple_ild_odd.
  set (ild := simple_ild angle_deg default_max_ild).
  replace (- - ild / 20 / 2) with (ild / 20 / 2) by lra.
  replace (- ild / 20 / 2) with (- ild / 20 / 2) by lra.
  reflexivity.
Qed.

Lemma bounded_by_swap (b : R) (stereo : list (R * R)) :
  bounded_by b stereo -> bounded_by b (swap_channels stereo).
Proof.
  unfold bounded_by, swap_channels. intros H. apply Forall_map.
  eapply Forall_impl; [|exact H]. intros p [Hl Hr]. split; assumption.
Qed.

Lemma swap_channels_involutive (stereo : list (R * R)) :
  swap_channels (swap_channels stereo) = stereo.
Proof.
  unfold swap_channels. rewrite map_map. rewrite <- (map_id stereo) at 2.
  apply map_ext. intros [l r]. reflexivity.
Qed.

Lemma peak_normalise_swap (stereo : list (R * R)) :
  peak_normalise (swap_channels stereo)
  = match peak_normalise stereo with
    | Returned s => Returned (swap_channels s)
    | ReturnedNone => ReturnedNone
    | Raised_ValueError => Raised_ValueError
    end.
Proof.
  destruct stereo as [|p stereo]; [reflexivity|].
  unfold peak_normalise.
  change (swap_channels (p :: stereo))
    with ((snd p, fst p) :: swap_channels stereo).
  destruct (np_max_abs_spec p stereo) as (peak & -> & Hub & Hleast).
  destruct (np_max_abs_spec (snd p, fst p) (swap_channels stereo))
    as (peak' & -> & Hub' & Hleast').
  assert (Hsame : peak' = peak).
  { apply Rle_antisym.
    - apply Hleast'. apply (bounded_by_swap peak (p :: stereo)). exact Hub.
    - apply Hleast. rewrite <- (swap_channels_involutive (p :: stereo)).
      apply bounded_by_swap. exact Hub'. }
  rewrite Hsame. destruct (Rlt_dec 1 peak); [|reflexivity].
  f_equal. unfold scale_stereo, swap_channels. cbn [map]. f_equal.
  rewrite !map_map. reflexivity.
Qed.

(** The two channels at [-angle] are the two channels at [angle],
    exchanged. *)
Lemma itd_channels_mirror (self : t) (a : R) (x : list R) (angle_deg : R) :
  exists left_ right_,
    itd_channels self (a :: x) angle_deg = Returned (left_, right_)
    /\ itd_channels self (a :: x) (- angle_deg) = Returned (right_, left_).
Proof.
  unfold itd_channels. rewrite woodworth_model_odd.
  replace (Rabs (- woodworth_model self angle_deg * sample_rate self))
    with (Rabs (woodworth_model self angle_deg * sample_rate self))
    by (rewrite <- Rabs_Ropp; f_equal; lra).
  destruct (Rle_dec 0 angle_deg) as [Hpos|Hneg];
    destruct (Rle_dec 0 (- angle_deg)) as [Hpos'|Hneg'];
    rewrite !fractional_shift_cons; try (eexists _, _; split; reflexivity);
    try lra.
  assert (angle_deg = 0) by lra. subst angle_deg.
  rewrite woodworth_model_0, Rmult_0_l, Rabs_R0.
  replace (- 0.5 * 0) with (0.5 * 0) by lra.
  eexists _, _; split; reflexivity.
Qed.

(** X17. The synthesis is mirror symmetric: the call at [-angle] has the
    outcome of the call at [angle], with the left and right channels of a
    returned signal exchanged. *)
Theorem apply_itd_is_mirror_symmetric
    (self : t) (mono_signal : list R) (angle_deg : R) (use_ild : bool) :
  apply_itd self mono_signal (- angle_deg) use_ild
  = match apply_itd self mono_signal angle_deg use_ild with
    | Returned s => Returned (swap_channels s)
    | ReturnedNone => ReturnedNone
    | Raised_ValueError => Raised_ValueError
    end.
Proof.
  unfold apply_itd. destruct mono_signal as [|a x].
  - now rewrite !itd_channels_nil.
  - destruct (itd_channels_mirror self a x angle_deg) as (l & r & -> & ->).
    destruct use_ild; [|reflexivity].
    rewrite ild_stereo_mirror. apply peak_normalise_swap.
Qed.

Lemma shifted_by_zero (x : list R) : x <> [] -> shifted x 0 = x.
Proof.
  intros Hx. apply (nth_ext _ _ 0 0); [apply shifted_length|].
  intros i Hi. rewrite shifted_length in Hi.
  change 0 with (IZR 0) at 1. rewrite shifted_by_integer by exact Hi.
  rewrite Z.sub_0_r. now apply sample_in_range.
Qed.

(** X18. At 0 degrees there is no cue at all: both channels of the
    returned signal are equal, and when no input sample exceeds [1.0] in
    absolute value the returned signal is the input itself on both
    channels. *)
Theorem apply_itd_straight_ahead_is_diotic (self : t) (mono_signal : list R) :
  mono_signal <> [] ->
  exists s,
    apply_itd self mono_signal 0 true = Returned s
    /\ Forall (fun p => fst p = snd p) s
    /\ (Forall (fun v => Rabs v <= 1) mono_signal ->
        s = combine mono_signal mono_signal).
Proof.
  intros Hx.
  assert (Hch : itd_channels self mono_signal 0
                = Returned (mono_signal, mono_signal)).
  { unfold itd_channels.
    rewrite woodworth_model_0, Rmult_0_l, Rabs_R0.
    replace (- 0.5 * 0) with 0 by lra. replace (0.5 * 0) with 0 by lra.
    destruct (Rle_dec 0 0);
      now rewrite !fractional_shift_returns, shifted_by_zero. }
  assert (Hild : ild_stereo 0 mono_signal mono_signal
                 = combine mono_signal mono_signal).
  { unfold ild_stereo.
    replace (simple_ild 0 default_max_ild) with 0
      by (unfold simple_ild, np_clip, default_max_ild, Rmin, Rmax;
          repeat destruct Rle_dec; lra).
    replace (- 0 / 20 / 2) with 0 by lra. replace (0 / 20 / 2) with 0 by lra.
    rewrite Rpower_O by lra.
    rewrite (map_ext (fun v => v * 1) (fun v => v)) by (intros; lra).
    now rewrite map_id. }
  assert (Hdiag : forall l : list R,
            Forall (fun p : R * R => fst p = snd p) (combine l l)).
  { induction l; cbn; constructor; auto. }
  unfold apply_itd. rewrite Hch, Hild.
  destruct mono_signal as [|a x]; [now contradiction Hx|].
  cbn [combine].
  unfold peak_normalise.
  destruct (np_max_abs_spec (a, a) (combine x x)) as (peak & -> & _ & Hleast).
  destruct (Rlt_dec 1 peak) as [Hgt|Hle]; eexists; (split; [reflexivity|]);
    split.
  - unfold scale_stereo. apply Forall_map.
    eapply Forall_impl; [|apply (Hdiag (a :: x))].
    intros [l r] E. cbn in *. now rewrite E.
  - intros Hb. exfalso.
    assert (Hall : forall l : list R,
              Forall (fun v => Rabs v <= 1) l -> bounded_by 1 (combine l l)).
    { intros l Hl. unfold bounded_by.
      induction Hl; cbn; constructor; auto. }
    specialize (Hleast 1 (Hall (a :: x) Hb)). lra.
  - apply (Hdiag (a :: x)).
  - intros _. reflexivity.
Qed.

Lemma apply_itd_straight_ahead_is_diotic_witness :
  apply_itd default [1 / 2; -1; 0] 0 true
  = Returned [(1 / 2, 1 / 2); (-1, -1); (0, 0)].
Proof.
  destruct (apply_itd_straight_ahead_is_diotic default [1 / 2; -1; 0])
    as (s & -> & _ & Hs); [discriminate|].
  f_equal. apply Hs.
  repeat constructor; unfold Rabs; destruct Rcase_abs; lra.
Defined.

(** ** The test tone *)

Lemma np_linspace_length (a b : R) (num : nat) :
  List.length (np_linspace a b num) = num.
Proof.
  unfold np_linspace. destruct num as [|[|num]]; [reflexivity|reflexivity|].
  now rewrite length_map, length_seq.
Qed.

Lemma ramp_values_length (r : nat) : List.length (ramp_values r) = r.
Proof. unfold ramp_values. now rewrite length_map, np_linspace_length. Qed.

Lemma ramp_values_unit (r : nat) : Forall unit_interval (ramp_values r).
Proof.
  unfold ramp_values. apply Forall_map, Forall_forall. intros v _.
  unfold unit_interval. pose proof (COS_bound v) as [Hlo Hhi]. lra.
Qed.

(** The ramp starts at exactly zero. *)
Lemma ramp_values_hd (r : nat) : hd 0 (ramp_values (S r)) = 0.
Proof.
  unfold ramp_values, np_linspace.
  destruct r as [|r]; cbn [map seq hd].
  - rewrite cos_0. lra.
  - replace (0 + INR 0 * ((PI - 0) / INR (S (S r) - 1))) with 0
      by (cbn [INR]; lra).
    rewrite cos_0. lra.
Qed.

Lemma imul_same_length (target values : list R) :
  List.length values = List.length target ->
  imul target values
  = Returned (map (fun p => fst p * snd p) (combine target values)).
Proof. intros H. unfold imul. rewrite H, Nat.eqb_refl. reflexivity. Qed.

Lemma product_length (a b : list R) :
  List.length b = List.length a ->
  List.length (map (fun p => fst p * snd p) (combine a b)) = List.length a.
Proof.
  intros H. rewrite length_map, length_combine, H. apply Nat.min_id.
Qed.

Lemma product_unit (a b : list R) :
  Forall unit_interval a -> Forall unit_interval b ->
  Forall unit_interval (map (fun p => fst p * snd p) (combine a b)).
Proof.
  intros Ha. revert b. induction Ha as [|u a Hu Ha IH]; intros b Hb.
  - constructor.
  - destruct Hb as [|v b Hv Hb]; cbn; constructor; [|now apply IH].
    unfold unit_interval in *. cbn. nra.
Qed.

Lemma product_last (a : list R) : forall b : list R,
  List.length b = List.length a -> a <> [] ->
  last (map (fun p => fst p * snd p) (combine a b)) 0 = last a 0 * last b 0.
Proof.
  induction a as [|u a IH]; intros [|v b] Hlen Ha; try discriminate Hlen;
    [now contradiction Ha|].
  destruct a as [|u' a], b as [|v' b]; try discriminate Hlen.
  - reflexivity.
  - change (last (u * v :: map (fun p => fst p * snd p)
                               (combine (u' :: a) (v' :: b))) 0
            = last (u' :: a) 0 * last (v' :: b) 0).
    change (map (fun p => fst p * snd p) (combine (u' :: a) (v' :: b)))
      with (u' * v' :: map (fun p => fst p * snd p) (combine a b)).
    change (last (u * v :: u' * v' :: map (fun p => fst p * snd p) (combine a b)) 0)
      with (last (map (fun p => fst p * snd p) (combine (u' :: a) (v' :: b))) 0).
    apply IH; [cbn in Hlen |- *; lia|discriminate].
Qed.

Lemma last_rev_hd (l : list R) : last (rev l) 0 = hd 0 l.
Proof.
  destruct l as [|u l]; [reflexivity|]. cbn [rev hd]. apply last_last.
Qed.

Lemma Forall_unit_repeat (n : nat) : Forall unit_interval (repeat 1 n).
Proof.
  apply Forall_forall. intros v Hv. apply repeat_spec in Hv. subst v.
  unfold unit_interval. lra.
Qed.

Lemma Forall_firstn {A : Type} (P : A -> Prop) (k : nat) (l : list A) :
  Forall P l -> Forall P (firstn k l).
Proof.
  intros H. rewrite <- (firstn_skipn k l) in H.
  now apply Forall_app in H.
Qed.

Lemma Forall_skipn {A : Type} (P : A -> Prop) (k : nat) (l : list A) :
  Forall P l -> Forall P (skipn k l).
Proof.
  intros H. rewrite <- (firstn_skipn k l) in H.
  now apply Forall_app in H.
Qed.

Lemma last_of_app (a b : list R) : b <> [] -> last (a ++ b) 0 = last b 0.
Proof.
  intros Hb. induction a as [|u a IH]; [reflexivity|].
  cbn [app]. destruct (a ++ b) as [|v l] eqn:E.
  - destruct a, b; try discriminate E. now contradiction Hb.
  - exact IH.
Qed.

(** The faded window of [N] samples with ramps of [r] samples,
    [1 <= r <= N]: it exists, has [N] entries between 0 and 1, and ends on
    zero. *)
Lemma faded_window (N r : nat) :
  (1 <= r <= N)%nat ->
  exists head tail,
    imul (firstn r (repeat 1 N)) (ramp_values r) = Returned head
    /\ imul (skipn (List.length (head ++ skipn r (repeat 1 N)) - r)
                   (head ++ skipn r (repeat 1 N)))
            (rev (ramp_values r)) = Returned tail
    /\ List.length
         (firstn (List.length (head ++ skipn r (repeat 1 N)) - r)
                 (head ++ skipn r (repeat 1 N)) ++ tail) = N
    /\ Forall unit_interval
         (firstn (List.length (head ++ skipn r (repeat 1 N)) - r)
                 (head ++ skipn r (repeat 1 N)) ++ tail)
    /\ last (firstn (List.length (head ++ skipn r (repeat 1 N)) - r)
                    (head ++ skipn r (repeat 1 N)) ++ tail) 0 = 0.
Proof.
  intros [Hr HN].
  assert (Hf : List.length (firstn r (repeat 1 N)) = r)
    by (rewrite length_firstn, repeat_length; lia).
  rewrite imul_same_length by (now rewrite ramp_values_length, Hf).
  set (head := map (fun p => fst p * snd p)
                   (combine (firstn r (repeat 1 N)) (ramp_values r))).
  assert (Hhead : List.length head = r).
  { unfold head. rewrite product_length; [exact Hf|].
    now rewrite ramp_values_length, Hf. }
  assert (Hhead1 : Forall unit_interval head).
  { unfold head. apply product_unit; [|apply ramp_values_unit].
    apply Forall_firstn, Forall_unit_repeat. }
  exists head.
  set (w1 := head ++ skipn r (repeat 1 N)).
  assert (Hw1 : List.length w1 = N)
    by (unfold w1; rewrite length_app, Hhead, length_skipn, repeat_length; lia).
  assert (Hw1u : Forall unit_interval w1).
  { unfold w1. apply Forall_app. split; [exact Hhead1|].
    apply Forall_skipn, Forall_unit_repeat. }
  rewrite Hw1.
  assert (Hs : List.length (skipn (N - r) w1) = r)
    by (rewrite length_skipn, Hw1; lia).
  rewrite imul_same_length by (now rewrite length_rev, ramp_values_length, Hs).
  set (tail := map (fun p => fst p * snd p)
                   (combine (skipn (N - r) w1) (rev (ramp_values r)))).
  assert (Htail : List.length tail = r).
  { unfold tail. rewrite product_length; [exact Hs|].
    now rewrite length_rev, ramp_values_length, Hs. }
  exists tail. split; [reflexivity|]. split; [reflexivity|].
  split; [rewrite length_app, length_firstn, Hw1, Htail; lia|].
  split.
  - apply Forall_app. split; [now apply Forall_firstn|].
    unfold tail. apply product_unit; [now apply Forall_skipn|].
    apply Forall_rev, ramp_values_unit.
  - assert (Hne : tail <> []) by (destruct tail; [cbn in Htail; lia|discriminate]).
    rewrite last_of_app by exact Hne.
    unfold tail. rewrite product_last.
    + rewrite last_rev_hd. destruct r as [|r]; [lia|].
      rewrite ramp_values_hd. lra.
    + now rewrite length_rev, ramp_values_length, Hs.
    + intros E. rewrite E in Hs. cbn in Hs. lia.
Qed.

Lemma ramp_samples_pos (self : t) : (1 <= ramp_samples self)%Z.
Proof. unfold ramp_samples. lia. Qed.

Lemma play_test_tone_long_enough (self : t) (freq duration : R) :
  (ramp_samples self <= tone_samples self duration)%Z ->
  exists tone,
    play_test_tone self freq duration = Returned tone
    /\ Z.of_nat (List.length tone) = tone_samples self duration
    /\ Forall (fun v => Rabs v <= 1) tone
    /\ hd 0 tone = 0
    /\ last tone 0 = 0.
Proof.
  intros Hlen. pose proof (ramp_samples_pos self) as Hr.
  unfold play_test_tone.
  replace (tone_samples self duration <? 0)%Z with false
    by (symmetry; apply Z.ltb_ge; lia).
  set (N := Z.to_nat (tone_samples self duration)).
  set (r := Z.to_nat (ramp_samples self)).
  destruct (faded_window N r ltac:(unfold N, r; lia))
    as (head & tail & -> & -> & Hwlen & Hwunit & Hwlast).
  set (window := firstn _ _ ++ tail) in *.
  set (t_tone := map (fun ti => sin (2 * PI * freq * ti)) _).
  assert (Htone : List.length t_tone = N)
    by (unfold t_tone; now rewrite !length_map, np_arange_length).
  eexists. split; [reflexivity|].
  split; [rewrite product_length by congruence; rewrite Htone; unfold N; lia|].
  assert (HN : (1 <= N)%nat) by (unfold N; lia).
  split; [|split].
  - apply Forall_map, Forall_forall. intros [u v] Hin.
    pose proof (in_combine_l _ _ _ _ Hin) as Hu.
    pose proof (in_combine_r _ _ _ _ Hin) as Hv.
    apply (proj1 (Forall_forall _ _) Hwunit) in Hv.
    unfold t_tone in Hu. apply in_map_iff in Hu. destruct Hu as (ti & <- & _).
    cbn. pose proof (SIN_bound (2 * PI * freq * ti)) as [Hlo Hhi].
    unfold unit_interval in Hv. apply Rabs_le. nra.
  - destruct N as [|N']; [lia|].
    destruct window as [|w0 window']; [discriminate Hwlen|].
    unfold t_tone, np_arange. cbn [seq map combine hd fst snd INR].
    unfold Rdiv. rewrite Rmult_0_l, Rmult_0_r, sin_0. lra.
  - rewrite product_last; [rewrite Hwlast; lra|congruence|].
    intros E. rewrite E in Htone. cbn in Htone. lia.
Qed.

Lemma py_int_between (x : R) (z : Z) :
  (0 <= z)%Z -> IZR z <= x < IZR z + 1 -> py_int x = z.
Proof.
  intros Hz Hx. unfold py_int.
  assert (0 <= IZR z) by (apply IZR_le in Hz; exact Hz).
  destruct (Rle_dec 0 x); [|lra].
  symmetry. apply Int_part_spec. lra.
Qed.

(** X19. When the tone is at least as long as one ramp, [play_test_tone]
    returns [int(sample_rate * duration)] samples, each within [1.0] in
    absolute value, and the tone starts and ends on a sample that is exactly
    zero. *)
Theorem play_test_tone_is_a_faded_unit_tone (self : t) (freq duration : R) :
  (ramp_samples self <= tone_samples self duration)%Z ->
  exists tone,
    play_test_tone self freq duration = Returned tone
    /\ Z.of_nat (List.length tone) = tone_samples self duration
    /\ Forall (fun v => Rabs v <= 1) tone
    /\ hd 0 tone = 0
    /\ last tone 0 = 0.
Proof. apply play_test_tone_long_enough. Qed.

Lemma default_tone_samples : tone_samples default 0.2 = 8820%Z.
Proof. apply py_int_between; cbn; [lia|lra]. Qed.

Lemma default_ramp_samples : ramp_samples default = 441%Z.
Proof.
  unfold ramp_samples. rewrite (py_int_between _ 441); cbn; [lia|lia|lra].
Qed.

Lemma play_test_tone_is_a_faded_unit_tone_witness :
  exists tone,
    play_test_tone default 750 0.2 = Returned tone
    /\ Z.of_nat (List.length tone) = 8820%Z
    /\ Forall (fun v => Rabs v <= 1) tone.
Proof.
  destruct (play_test_tone_is_a_faded_unit_tone default 750 0.2)
    as (tone & Ht & Hlen & Hb & _).
  - rewrite default_tone_samples, default_ramp_samples. lia.
  - exists tone. rewrite default_tone_samples in Hlen.
    split; [exact Ht|]. split; [exact Hlen | exact Hb].
Defined.

(** X20. [play_test_tone] raises [ValueError] exactly when the sample
    count [n = int(sample_rate * duration)] is negative, or when it is
    smaller than a ramp of two or more samples (the ramp cannot be
    multiplied into the shorter window); otherwise it returns. *)
Theorem play_test_tone_raises_iff_shorter_than_the_ramp
    (self : t) (freq duration : R) :
  play_test_tone self freq duration = Raised_ValueError
  <-> ((tone_samples self duration < 0)%Z
       \/ (tone_samples self duration < ramp_samples self
           /\ 1 < ramp_samples self)%Z).
Proof.
  pose proof (ramp_samples_pos self) as Hr. split.
  - intros Hraise.
    destruct (Z.lt_ge_cases (tone_samples self duration) 0) as [Hn|Hn];
      [now left|].
    destruct (Z.le_gt_cases (ramp_samples self) (tone_samples self duration))
      as [Hlong|Hshort].
    + destruct (play_test_tone_long_enough self freq duration Hlong)
        as (tone & Ht & _). rewrite Ht in Hraise. discriminate Hraise.
    + destruct (Z.lt_ge_cases 1 (ramp_samples self)) as [H1|H1];
        [right; split; assumption|].
      exfalso. assert (Hr1 : ramp_samples self = 1%Z) by lia.
      assert (Hn0 : tone_samples self duration = 0%Z) by lia.
      unfold play_test_tone in Hraise. rewrite Hr1, Hn0 in Hraise.
      cbn in Hraise. discriminate Hraise.
  - intros [Hneg | [Hshort Hramp]]; unfold play_test_tone.
    + replace (tone_samples self duration <? 0)%Z with true
        by (symmetry; apply Z.ltb_lt; exact Hneg).
      reflexivity.
    + destruct (Z.ltb_spec (tone_samples self duration) 0); [reflexivity|].
      set (N := Z.to_nat (tone_samples self duration)).
      set (r := Z.to_nat (ramp_samples self)).
      assert (HNr : (N < r)%nat) by (unfold N, r; lia).
      assert (Hr2 : (2 <= r)%nat) by (unfold r; lia).
      unfold imul at 1.
      rewrite ramp_values_length, length_firstn, repeat_length.
      replace (Nat.eqb r (Nat.min r N)) with false
        by (symmetry; apply Nat.eqb_neq; lia).
      pose proof (ramp_values_length r) as Hlen.
      destruct (ramp_values r) as [|v0 [|v1 vs]]; cbn in Hlen; try lia.
      reflexivity.
Qed.

(** ** The samples written to disk *)

Lemma py_int_within (v : R) (m : Z) :
  (0 <= m)%Z -> Rabs v < IZR m + 1 -> (- m <= py_int v <= m)%Z.
Proof.
  intros Hm Hv. unfold py_int.
  destruct (Rle_dec 0 v) as [Hpos|Hneg].
  - rewrite Rabs_pos_eq in Hv by exact Hpos.
    destruct (base_Int_part v) as [Hle Hgt].
    assert (H1 : (Int_part v < m + 1)%Z)
      by (apply lt_IZR; rewrite plus_IZR; lra).
    assert (H2 : (-1 < Int_part v)%Z) by (apply lt_IZR; lra).
    lia.
  - rewrite Rabs_left in Hv by lra.
    destruct (base_Int_part (- v)) as [Hle Hgt].
    assert (H1 : (Int_part (- v) < m + 1)%Z)
      by (apply lt_IZR; rewrite plus_IZR; lra).
    assert (H2 : (-1 < Int_part (- v))%Z) by (apply lt_IZR; lra).
    lia.
Qed.

(** X21. The samples [save_soundfile] writes never leave the 16-bit range:
    for a non-empty signal every written sample lies between -31128 and
    31128 (95 % of full scale), whatever the level of the input, and a
    silent input is written as zeros. *)
Theorem save_soundfile_samples_fit_int16 (stereo_signal : list (R * R)) :
  stereo_signal <> [] ->
  exists pcm,
    save_soundfile_samples stereo_signal = Returned pcm
    /\ List.length pcm = List.length stereo_signal
    /\ Forall (fun p => (-31128 <= fst p <= 31128)%Z
                        /\ (-31128 <= snd p <= 31128)%Z) pcm
    /\ (bounded_by 0 stereo_signal -> Forall (fun p => p = (0%Z, 0%Z)) pcm).
Proof.
  intros Hne. destruct stereo_signal as [|p stereo]; [now contradiction Hne|].
  unfold save_soundfile_samples.
  destruct (np_max_abs_spec p stereo) as (peak & -> & Hub & Hleast).
  eexists. split; [reflexivity|].
  assert (Hsmall : forall v, Rabs v <= 0.95 -> (-31128 <= py_int (v * 32767) <= 31128)%Z).
  { intros v Hv.
    assert (Hlt : Rabs (v * 32767) < IZR 31128 + 1)
      by (rewrite Rabs_mult, (Rabs_pos_eq 32767) by lra; lra).
    pose proof (py_int_within (v * 32767) 31128 ltac:(lia) Hlt). lia. }
  assert (Hzero : forall v, Rabs v <= 0 -> py_int (v * 32767) = 0%Z).
  { intros v Hv. pose proof (Rabs_pos v). apply Rabs_within in Hv.
    replace v with 0 by lra. rewrite Rmult_0_l.
    apply py_int_between; [lia|lra]. }
  destruct (Rlt_dec 0 peak) as [Hpos|Hnpos].
  - split; [now rewrite !length_map|]. split.
    + apply Forall_map, Forall_map. unfold bounded_by in Hub.
      eapply Forall_impl; [|exact Hub]. intros [l r] [Hl Hr]. cbn in *.
      assert (Hscaled : forall v, Rabs v <= peak -> Rabs (v / peak * 0.95) <= 0.95).
      { intros v Hv. rewrite Rabs_mult, (Rabs_pos_eq 0.95) by lra.
        pose proof (Rabs_div_le v peak peak Hpos Hv) as H.
        replace (peak / peak) with 1 in H by (field; lra).
        pose proof (Rabs_pos (v / peak)). nra. }
      split; apply Hsmall, Hscaled; assumption.
    + intros H0. specialize (Hleast 0 H0). lra.
  - split; [now rewrite length_map|].
    assert (Hall0 : bounded_by 0 (p :: stereo)).
    { unfold bounded_by in *. eapply Forall_impl; [|exact Hub].
      intros q [Hl Hr]. split; lra. }
    assert (Hz : Forall (fun q => q = (0%Z, 0%Z))
                   (map (fun q : R * R => (py_int (fst q * 32767),
                                           py_int (snd q * 32767)))
                        (p :: stereo))).
    { apply Forall_map. unfold bounded_by in Hall0.
      eapply Forall_impl; [|exact Hall0]. intros [l r] [Hl Hr]. cbn in *.
      now rewrite !Hzero. }
    split; [|intros _; exact Hz].
    eapply Forall_impl; [|exact Hz]. intros q ->. cbn. lia.
Qed.

Lemma save_soundfile_samples_fit_int16_witness :
  exists pcm,
    save_soundfile_samples [(3, -4); (1, 2)] = Returned pcm
    /\ Forall (fun p => (-31128 <= fst p <= 31128)%Z
                        /\ (-31128 <= snd p <= 31128)%Z) pcm.
Proof.
  destruct (save_soundfile_samples_fit_int16 [(3, -4); (1, 2)])
    as (pcm & Hp & _ & Hb & _); [discriminate|].
  exists pcm. split; [exact Hp | exact Hb].
Defined.

(** ** The stimuli of the experiment *)

(** X22. The stimuli of a session are always well formed: the tone built in
    [jnd_experiment.__init__] ([play_test_tone(duration = 0.2)] on the
    default generator) exists, and for every azimuth [apply_itd] turns it
    into a stereo signal of 8820 rows whose entries all lie within [1.0]. *)
Theorem session_stimuli_are_well_formed (angle_deg : R) :
  exists tone s,
    play_test_tone default 750 0.2 = Returned tone
    /\ apply_itd default tone angle_deg true = Returned s
    /\ Z.of_nat (List.length s) = 8820%Z
    /\ bounded_by 1 s.
Proof.
  destruct (play_test_tone_long_enough default 750 0.2)
    as (tone & Ht & Hlen & _).
  { rewrite default_tone_samples, default_ramp_samples. lia. }
  rewrite default_tone_samples in Hlen.
  destruct tone as [|a x]; [cbn in Hlen; lia|].
  destruct (itd_channels_cons default a x angle_deg) as (l & r & Hch & Hl & Hr).
  pose proof (ild_stereo_length angle_deg l r ltac:(congruence)) as Hs.
  rewrite Hl in Hs.
  destruct (ild_stereo angle_deg l r) as [|p pre] eqn:Hpre;
    [discriminate Hs|].
  destruct (peak_normalise_spec p pre) as (s & Hnorm & Hslen & Hb & _).
  exists (a :: x), s. split; [exact Ht|].
  unfold apply_itd. rewrite Hch, Hpre.
  split; [exact Hnorm|]. split; [|exact Hb].
  rewrite Hslen, Hs. exact Hlen.
Qed.

End ItdMore.

(** * Construction *)

Module ConstructionFacts.

Import jnd_experiment.
Local Open Scope Z_scope.

#[local] Set Warnings "-inexact-float".

(** The tone of a session exists. *)
Lemma session_tone_exists :
  exists tone,
    generate_ITD.play_test_tone generate_ITD.default 750%R 0.2%R
    = Returned tone.
Proof.
  destruct (ItdMore.play_test_tone_long_enough generate_ITD.default 750%R 0.2%R)
    as (tone & Ht & _).
  - rewrite ItdMore.default_tone_samples, ItdMore.default_ramp_samples. lia.
  - now exists tone.
Qed.

(** The outcome of the constructor is decided by line 47 alone. *)
Lemma construct_outcome (mt : Z) (sa mn mx : float) :
  exists tone,
    generate_ITD.play_test_tone generate_ITD.default 750%R 0.2%R
    = Returned tone
    /\ construct mt sa mn mx
       = if PrimFloat.is_finite (PrimFloat.mul mx 1.1%float)
         then Returned
                {| staircase :=
                     {| angle := sa; min_angle := mn; max_angle := mx;
                        max_trials := mt; correct_streak := 0;
                        reversals := 0; last_direction := None;
                        history_angle := []; history_correct := [] |};
                   generator := generate_ITD.default;
                   tone := tone |}
         else Raised_ValueError.
Proof.
  destruct session_tone_exists as (tone & Ht). exists tone.
  split; [exact Ht|]. unfold construct.
  change (generate_ITD.init 44100%R 0.0875%R 343%R)
    with (Returned generate_ITD.default).
  cbv iota. rewrite Ht. cbn [init]. unfold set_ylim.
  change (PrimFloat.is_finite 0%float) with true. cbn [andb].
  destruct (PrimFloat.is_finite (PrimFloat.mul mx 1.1%float)); reflexivity.
Qed.

(** C5, counterexample.  A session with [min_angle = 50 > max_angle = 10]
    is built and returned with its bounds inverted, and so is a generator
    with sample rate [0] or [-44100]: nothing raises. *)
Lemma C5_inverted_bounds_are_accepted :
  (exists b,
     construct 10 10%float 50%float 10%float = Returned b
     /\ min_angle (staircase b) = 50%float
     /\ max_angle (staircase b) = 10%float
     /\ PrimFloat.ltb (max_angle (staircase b)) (min_angle (staircase b))
        = true)
  /\ (exists g, generate_ITD.init 0%R 0.0875%R 343%R = Returned g
                /\ generate_ITD.sample_rate g = 0%R)
  /\ (exists g, generate_ITD.init (-44100)%R 0.0875%R 343%R = Returned g
                /\ generate_ITD.sample_rate g = (-44100)%R).
Proof.
  split; [|split; eexists; split; reflexivity].
  destruct (construct_outcome 10 10%float 50%float 10%float)
    as (tone & _ & Hc).
  change (PrimFloat.is_finite (PrimFloat.mul 10%float 1.1%float))
    with true in Hc.
  eexists. split; [exact Hc|]. repeat split.
Qed.

(** C5, amended.  Neither constructor compares the bounds or looks at the
    sign of the sample rate.  [jnd_experiment.__init__] returns exactly when
    [max_angle * 1.1] is a finite float, whatever [min_angle], the start
    angle and [max_trials] are: the object then stores the arguments as
    given, inverted bounds included, holds the default generator and its
    tone, and [run] on it completes all of its [max(0, max_trials)] trials.
    When [max_angle * 1.1] is NaN or infinite the constructor raises
    [ValueError] from [set_ylim] on line 47, again whatever [min_angle] is.
    [generate_ITD.__init__] returns for every sample rate, positive or
    not. *)
Theorem C5_construction_fails_only_on_a_non_finite_axis_limit
    (mt : Z) (sa mn mx : float) :
  (PrimFloat.is_finite (PrimFloat.mul mx 1.1%float) = true ->
   exists b,
     construct mt sa mn mx = Returned b
     /\ angle (staircase b) = sa
     /\ min_angle (staircase b) = mn
     /\ max_angle (staircase b) = mx
     /\ max_trials (staircase b) = mt
     /\ correct_streak (staircase b) = 0
     /\ reversals (staircase b) = 0
     /\ last_direction (staircase b) = None
     /\ histories (staircase b) = ([], [])
     /\ generator b = generate_ITD.default
     /\ generate_ITD.play_test_tone generate_ITD.default 750%R 0.2%R
        = Returned (tone b)
     /\ forall w, exists self' w',
          run (staircase b) w = Some (self', w', Z.max 0 mt)
          /\ List.length (history_correct self') = Z.to_nat mt)
  /\ (PrimFloat.is_finite (PrimFloat.mul mx 1.1%float) = false ->
      construct mt sa mn mx = Raised_ValueError)
  /\ (forall sr r c : R,
        exists g,
          generate_ITD.init sr r c = Returned g
          /\ generate_ITD.sample_rate g = sr
          /\ generate_ITD.avg_head_r g = r
          /\ generate_ITD.speed_of_sound g = c).
Proof.
  destruct (construct_outcome mt sa mn mx) as (tone & Ht & Hc).
  split; [|split].
  - intros Hfin. rewrite Hfin in Hc. eexists. split; [exact Hc|].
    cbn [staircase generator jnd_experiment.tone].
    do 8 (split; [reflexivity|]). split; [reflexivity|].
    split; [exact Ht|]. intros w.
    set (s0 := {| angle := sa |}).
    assert (H0 : only_up s0) by (split; [discriminate|reflexivity]).
    exists (fst (after_trials (Z.to_nat mt) s0 w)),
           (snd (after_trials (Z.to_nat mt) s0 w)).
    split.
    + unfold run. change (max_trials s0) with mt.
      rewrite (StaircaseFacts.run_loop_counts (Z.to_nat mt)).
      * reflexivity.
      * change (max_trials s0) with mt. f_equal. lia.
      * lia.
      * intros k _.
        destruct (StaircaseFacts.after_trials_only_up k s0 w H0) as [_ ->].
        lia.
    + destruct (StaircaseFacts.after_trials_history_length (Z.to_nat mt) s0 w)
        as [_ ->]. reflexivity.
  - intros Hinf. rewrite Hinf in Hc. exact Hc.
  - intros sr r c. eexists. split; [reflexivity|]. repeat split.
Qed.

Lemma C5_construction_fails_only_on_a_non_finite_axis_limit_witness :
  (exists b,
     construct 5 10%float 50%float 10%float = Returned b
     /\ min_angle (staircase b) = 50%float
     /\ max_angle (staircase b) = 10%float
     /\ forall w, exists self' w',
          run (staircase b) w = Some (self', w', 5)
          /\ List.length (history_correct self') = 5%nat)
  /\ construct 5 10%float 0%float neg_infinity = Raised_ValueError.
Proof.
  split.
  - destruct (C5_construction_fails_only_on_a_non_finite_axis_limit
                5 10%float 50%float 10%float)
      as ((b & Hb & _ & Hmn & Hmx & _ & _ & _ & _ & _ & _ & _ & Hrun) & _ & _).
    { vm_compute. reflexivity. }
    exists b. split; [exact Hb|]. split; [exact Hmn|]. split; [exact Hmx|].
    exact Hrun.
  - apply (C5_construction_fails_only_on_a_non_finite_axis_limit
             5 10%float 0%float neg_infinity).
    vm_compute. reflexivity.
Defined.

End ConstructionFacts.
